(** * memscav: scavenger of memory hidden from the kernel

    A shallow embedding of [drivers/misc/memscav.c] and the properties of
    its scan-and-scavenge engine.

    Conventions of the embedding:
    - [u64] / [unsigned long long] values are integers in [Z]; every C
      operation that can wrap is followed by [wrap64];
    - the module's globals ([unloadable], [hidden_blocks],
      [hidden_blocks_cnt], [ranges] with [ranges_len]) are the fields of
      [state], threaded explicitly through every function;
    - every kernel service the driver calls but does not define (the
      allocator, the resource tracker, memory hot-add, the module
      reference count, number parsing, the firmware tables, [sort]) is a
      field of [env];
    - loops over a finite list are structural recursions; the address loop
      of [find_hidden_blocks], which the C code bounds only by an
      arithmetic test, runs on fuel and reports when the fuel is gone. *)

From Stdlib Require Import ZArith List Bool Lia String Ascii.
From Stdlib Require Import Permutation Sorted Orders Mergesort HexString.
Import ListNotations.
Local Open Scope Z_scope.

(** ** Machine integers *)

Definition U64_MODULUS : Z := 2 ^ 64.
Definition U64_MAX : Z := U64_MODULUS - 1.

(** Reduction of an integer to the [u64] it denotes. *)
Definition wrap64 (z : Z) : Z := z mod U64_MODULUS.

(** [is_u64 z]: [z] is the value of some [u64]. *)
Definition is_u64 (z : Z) : Prop := 0 <= z < U64_MODULUS.

(** [~m] on 64 bits. *)
Definition not64 (m : Z) : Z := wrap64 (Z.lnot m).

(** [__ALIGN_KERNEL_MASK(x, mask)] is [((x) + (mask)) & ~(mask)]. *)
Definition ALIGN_MASK (x mask : Z) : Z :=
  Z.land (wrap64 (x + mask)) (not64 mask).

(** [ALIGN(x, a)] is [__ALIGN_KERNEL_MASK(x, (typeof(x))(a) - 1)]. *)
Definition ALIGN (x a : Z) : Z := ALIGN_MASK x (wrap64 (a - 1)).

(** [IS_ALIGNED(x, a)] is [((x) & ((typeof(x))(a) - 1)) == 0]. *)
Definition IS_ALIGNED (x a : Z) : bool := Z.land x (wrap64 (a - 1)) =? 0.

(** [unsigned int] arithmetic. *)
Definition wrap32 (z : Z) : Z := z mod 2 ^ 32.

(** Error numbers of [include/uapi/asm-generic/errno-base.h]. *)
Definition ENOMEM : Z := 12.
Definition EINVAL : Z := 22.

(** Constants of [include/linux/efi.h]. *)
Definition EFI_CONVENTIONAL_MEMORY : Z := 7.
Definition EFI_PAGE_SHIFT : Z := 12.

(** ** Data *)

(** [struct range] of [linux/range.h]: an inclusive interval. *)
Record range : Type := mk_range { r_start : Z; r_end : Z }.

(** [range_len] of [linux/range.h]: [range->end - range->start + 1]. *)
Definition range_len (r : range) : Z := wrap64 (r_end r - r_start r + 1).

(** The fields of [efi_memory_desc_t] the driver reads. *)
Record efi_memory_desc : Type :=
  mk_efi_md { md_type : Z; md_phys_addr : Z; md_num_pages : Z }.

(** A device-tree node of type [memory]: its [reg] entries, in order, as
    (address, size) pairs. [of_property_read_reg(np, i, ..)] succeeds
    exactly for the indices of this list. *)
Definition device_node : Type := list (Z * Z).

(** The module's global variables.

    [hidden_blocks] is the linked list, head first, of the [phys] fields.
    [ranges] is the array together with its length [ranges_len].
    [n_alloc] is a ghost counter: how many allocator calls have been made,
    which is the index of the next answer of the allocation oracle. *)
Record state : Type := mk_state {
  unloadable : bool;
  hidden_blocks : list Z;
  hidden_blocks_cnt : Z;
  ranges : list range;
  n_alloc : nat
}.

(** What [static] initialisation gives. *)
Definition initial_state : state :=
  {| unloadable := true; hidden_blocks := []; hidden_blocks_cnt := 0;
     ranges := []; n_alloc := 0 |}.

Definition set_unloadable (b : bool) (st : state) : state :=
  {| unloadable := b; hidden_blocks := hidden_blocks st;
     hidden_blocks_cnt := hidden_blocks_cnt st; ranges := ranges st;
     n_alloc := n_alloc st |}.

Definition set_hidden_blocks (l : list Z) (st : state) : state :=
  {| unloadable := unloadable st; hidden_blocks := l;
     hidden_blocks_cnt := hidden_blocks_cnt st; ranges := ranges st;
     n_alloc := n_alloc st |}.

Definition set_hidden_blocks_cnt (c : Z) (st : state) : state :=
  {| unloadable := unloadable st; hidden_blocks := hidden_blocks st;
     hidden_blocks_cnt := c; ranges := ranges st; n_alloc := n_alloc st |}.

Definition set_ranges (l : list range) (st : state) : state :=
  {| unloadable := unloadable st; hidden_blocks := hidden_blocks st;
     hidden_blocks_cnt := hidden_blocks_cnt st; ranges := l;
     n_alloc := n_alloc st |}.

Definition set_n_alloc (n : nat) (st : state) : state :=
  {| unloadable := unloadable st; hidden_blocks := hidden_blocks st;
     hidden_blocks_cnt := hidden_blocks_cnt st; ranges := ranges st;
     n_alloc := n |}.

(** The kernel as the driver sees it. *)
Record env : Type := mk_env {
  (** [memory_block_size_bytes()] *)
  block_sz : Z;
  (** [PAGE_SIZE], the size of a sysfs buffer *)
  PAGE_SIZE : nat;
  (** does the [k]-th call of [kmalloc]/[krealloc] succeed *)
  alloc_ok : nat -> bool;
  (** [region_intersects(start, size, IORESOURCE_MEM, IORES_DESC_NONE)
      == REGION_DISJOINT] *)
  region_disjoint : Z -> Z -> bool;
  (** [memory_add_physaddr_to_nid(phys)] *)
  memory_add_physaddr_to_nid : Z -> Z;
  (** the return code of [add_memory_driver_managed(nid, start, size,
      "System RAM (memscav)", MHP_MERGE_RESOURCE)] *)
  add_memory_driver_managed : Z -> Z -> Z -> Z;
  (** [try_module_get(THIS_MODULE)] *)
  try_module_get : bool;
  (** [kstrtoull(buf, 0, &v)]: [inl rc] with [rc] its non-zero return
      code, or [inr v] *)
  kstrtoull : string -> Z + Z;
  (** [efi_enabled(EFI_MEMMAP)] *)
  efi_memmap_enabled : bool;
  (** the descriptors [for_each_efi_memory_desc] walks *)
  efi_memmap : list efi_memory_desc;
  (** the nodes [of_find_node_by_type(np, "memory")] walks *)
  of_memory_nodes : list device_node;
  (** [sort(base, num, size, cmp, NULL)] of [lib/sort.c] on an array of
      [struct range] *)
  sort : list range -> (range -> range -> Z) -> list range
}.

(** What [sort] promises: the array is rearranged, and ends up ordered by
    the comparison function. *)
Definition sort_contract (e : env) : Prop :=
  forall (cmp : range -> range -> Z) (l : list range),
    (forall a b, cmp a b <= 0 \/ cmp b a <= 0) ->
    (forall a b c, cmp a b <= 0 -> cmp b c <= 0 -> cmp a c <= 0) ->
    Permutation l (sort e l cmp) /\
    StronglySorted (fun a b => cmp a b <= 0) (sort e l cmp).

(** ** The driver *)

Section Driver.

Variable e : env.

(** An allocator call: consult the oracle, count the call. *)
Definition kalloc (st : state) : bool * state :=
  (alloc_ok e (n_alloc st), set_n_alloc (S (n_alloc st)) st).

(** [hidden_block_add] *)
Definition hidden_block_add (phys : Z) (st : state) : Z * state :=
  let (ok, st1) := kalloc st in
  if ok then
    (0, set_hidden_blocks_cnt (wrap32 (hidden_blocks_cnt st1 + 1))
          (set_hidden_blocks (hidden_blocks st1 ++ [phys]) st1))
  else (- ENOMEM, st1).

(** [list_del] of the [i]-th node. *)
Definition list_del (i : nat) (l : list Z) : list Z :=
  firstn i l ++ skipn (S i) l.

(** [hidden_block_free(b)], [b] being the [i]-th node of the list. *)
Definition hidden_block_free (i : nat) (st : state) : state :=
  set_hidden_blocks_cnt (wrap32 (hidden_blocks_cnt st - 1))
    (set_hidden_blocks (list_del i (hidden_blocks st)) st).

(** The [while] loop of [hidden_blocks_purge]: each round frees the first
    entry, so the length of the list bounds the number of rounds. *)
Fixpoint purge_loop (rounds : nat) (st : state) : state :=
  match rounds with
  | O => st
  | S rounds' =>
      match hidden_blocks st with
      | [] => st
      | _ :: _ => purge_loop rounds' (hidden_block_free 0 st)
      end
  end.

(** [hidden_blocks_purge]; its [WARN_ON(hidden_blocks_cnt)] only logs. *)
Definition hidden_blocks_purge (st : state) : state :=
  purge_loop (List.length (hidden_blocks st)) st.

(** [ram_map_add] *)
Definition ram_map_add (base size : Z) (st : state) : Z * state :=
  let (ok, st1) := kalloc st in
  if ok then
    (0, set_ranges
          (ranges st1 ++ [mk_range base (wrap64 (base + size - 1))]) st1)
  else (- ENOMEM, st1).

(** [ram_map_free] *)
Definition ram_map_free (st : state) : state := set_ranges [] st.

(** [disable_unload] *)
Definition disable_unload (st : state) : state :=
  if negb (unloadable st) then st
  else if negb (try_module_get e) then st
  else set_unloadable false st.

(** [cmp_range] *)
Definition cmp_range (r1 r2 : range) : Z :=
  if r_start r1 <? r_start r2 then -1
  else if r_start r1 >? r_start r2 then 1
  else 0.

(** *** Range map builders *)

(** [md->num_pages << EFI_PAGE_SHIFT] *)
Definition efi_md_size (md : efi_memory_desc) : Z :=
  wrap64 (Z.shiftl (md_num_pages md) EFI_PAGE_SHIFT).

(** The [for_each_efi_memory_desc] loop of [ram_map_from_efi]. A non-zero
    first component is the [return rc] taken inside the loop. *)
Fixpoint efi_loop (mds : list efi_memory_desc) (st : state) : Z * state :=
  match mds with
  | [] => (0, st)
  | md :: rest =>
      if negb (md_type md =? EFI_CONVENTIONAL_MEMORY) then efi_loop rest st
      else
        let (rc, st1) := ram_map_add (md_phys_addr md) (efi_md_size md) st in
        if negb (rc =? 0) then (rc, ram_map_free st1)
        else efi_loop rest st1
  end.

(** [ram_map_from_efi] *)
Definition ram_map_from_efi (st : state) : Z * state :=
  if negb (efi_memmap_enabled e) then (- EINVAL, st)
  else
    let (rc, st1) := efi_loop (efi_memmap e) st in
    if negb (rc =? 0) then (rc, st1)
    else (0, set_ranges (sort e (ranges st1) cmp_range) st1).

(** [of_get_address(np, idx, &size, NULL)]: the [idx]-th entry of the
    [reg] property with its size, or [NULL] when there is none. *)
Definition of_get_address (np : device_node) (idx : nat) : option (Z * Z) :=
  nth_error np idx.

(** [of_property_read_reg]: [inl rc] for a non-zero return code, [inr]
    with the address and size read otherwise. *)
Definition of_property_read_reg (np : device_node) (idx : nat)
  : Z + (Z * Z) :=
  match of_get_address np idx with
  | None => inl (- EINVAL)
  | Some (addr, size) => inr (addr, size)
  end.

(** The [for (i = 0; !of_property_read_reg(np, i, ..); ++i)] loop over one
    node, from index [i] on. The reads succeed for the indices of [reg]
    only, so [rounds] beyond the number of entries left are never used. *)
Fixpoint fdt_reg_loop (rounds : nat) (np : device_node) (i : nat)
  (st : state) : Z * state :=
  match rounds with
  | O => (0, st)
  | S rounds' =>
      match of_property_read_reg np i with
      | inl _ => (0, st)
      | inr (address, size) =>
          let (rc, st1) := ram_map_add address size st in
          if negb (rc =? 0) then (rc, ram_map_free st1)
          else fdt_reg_loop rounds' np (S i) st1
      end
  end.

(** The [while ((np = of_find_node_by_type(np, "memory")))] loop. *)
Fixpoint fdt_node_loop (nodes : list device_node) (st : state) : Z * state :=
  match nodes with
  | [] => (0, st)
  | np :: rest =>
      let (rc, st1) := fdt_reg_loop (S (List.length np)) np 0 st in
      if negb (rc =? 0) then (rc, st1)
      else fdt_node_loop rest st1
  end.

(** [ram_map_from_fdt] *)
Definition ram_map_from_fdt (st : state) : Z * state :=
  let (rc, st1) := fdt_node_loop (of_memory_nodes e) st in
  if negb (rc =? 0) then (rc, st1)
  else (0, set_ranges (sort e (ranges st1) cmp_range) st1).

(** *** Hidden block scanner *)

(** How a fuel-bounded loop stopped: its condition became false, it took
    [goto out] with a return code, or the fuel ran out with the loop still
    running. *)
Inductive loop_result : Type :=
| LoopExit (st : state)
| LoopGoto (rc : Z) (st : state)
| LoopFuel (st : state).

(** The inner [for (; start + block_sz < ranges[i].end; start += block_sz)]
    loop of [find_hidden_blocks]. The second component lists, in order,
    the addresses handed to [region_intersects]. *)
Fixpoint scan_range (fuel : nat) (rend start : Z) (st : state)
  : loop_result * list Z :=
  match fuel with
  | O => (LoopFuel st, [])
  | S fuel' =>
      if wrap64 (start + block_sz e) <? rend then
        let next := wrap64 (start + block_sz e) in
        if negb (region_disjoint e start (block_sz e)) then
          let (res, qs) := scan_range fuel' rend next st in
          (res, start :: qs)
        else
          let (rc, st1) := hidden_block_add start st in
          if negb (rc =? 0) then (LoopGoto rc st1, [start])
          else
            let (res, qs) := scan_range fuel' rend next st1 in
            (res, start :: qs)
      else (LoopExit st, [])
  end.

(** The outer [for (i = 0; i < ranges_len; ++i)] loop; [fuel] bounds each
    inner loop. *)
Fixpoint scan_ranges (fuel : nat) (rs : list range) (st : state)
  : loop_result * list Z :=
  match rs with
  | [] => (LoopExit st, [])
  | r :: rest =>
      let start := ALIGN (r_start r) (block_sz e) in
      match scan_range fuel (r_end r) start st with
      | (LoopExit st1, qs) =>
          let (res, qs') := scan_ranges fuel rest st1 in (res, qs ++ qs')
      | stopped => stopped
      end
  end.

(** A call that either returned or is still running when the fuel ran
    out. *)
Inductive outcome : Type :=
| Returned (rc : Z) (st : state)
| Running (st : state).

(** [find_hidden_blocks] *)
Definition find_hidden_blocks (fuel : nat) (st : state) : outcome * list Z :=
  match scan_ranges fuel (ranges st) st with
  | (LoopExit st1, qs) => (Returned 0 st1, qs)
  | (LoopGoto rc st1, qs) => (Returned rc (hidden_blocks_purge st1), qs)
  | (LoopFuel st1, qs) => (Running st1, qs)
  end.

(** *** Report formatter *)

Definition newline : string := String (ascii_of_nat 10) EmptyString.

(** Modelled from the spec: the conversion [%#llx] of the kernel's
    [vsnprintf] is not in the sources at hand; the spec's example line
    [0x4000-0x7fff (0x4000)] fixes it as lower-case hexadecimal with a
    [0x] prefix. *)
Definition fmt_llx (v : Z) : string := HexString.of_Z v.

(** The text of format ["%#llx-%#llx (%#llx)\n"]. *)
Definition fmt_line (a b c : Z) : string :=
  (fmt_llx a ++ "-" ++ fmt_llx b ++ " (" ++ fmt_llx c ++ ")" ++ newline)%string.

(** Modelled from the spec: [sysfs_emit_at] of [fs/sysfs/file.c] is not in
    the sources at hand. It writes the text at offset [at_] of a buffer of
    [PAGE_SIZE] bytes, silently dropping what does not fit (one byte is
    kept for the terminator), and returns the number of characters
    written; with [at_] outside the buffer it writes nothing. [buf] is the
    text already in the buffer, so [at_] is its length at every call. *)
Definition sysfs_emit_at (buf : string) (at_ : nat) (text : string)
  : string * nat :=
  if (PAGE_SIZE e <=? at_)%nat then (buf, O)
  else
    let n := Nat.min (String.length text) (PAGE_SIZE e - at_ - 1) in
    ((buf ++ substring 0 n text)%string, n).

(** The loop of [ranges_show]. *)
Fixpoint ranges_show_loop (rs : list range) (buf : string) (count : nat)
  : string * nat :=
  match rs with
  | [] => (buf, count)
  | r :: rest =>
      if (count <? PAGE_SIZE e)%nat then
        let (buf1, n) :=
          sysfs_emit_at buf count (fmt_line (r_start r) (r_end r) (range_len r))
        in ranges_show_loop rest buf1 (count + n)%nat
      else (buf, count)
  end.

(** [ranges_show]: the text left in the buffer and the returned count. *)
Definition ranges_show (st : state) : string * nat :=
  ranges_show_loop (ranges st) EmptyString O.

(** The [list_for_each_entry] loop of [hidden_blocks_show], carrying the
    locals [start], [size] and [count] and the buffer. *)
Fixpoint hidden_blocks_show_loop (bl : list Z) (start size : Z)
  (buf : string) (count : nat) : Z * Z * string * nat :=
  match bl with
  | [] => (start, size, buf, count)
  | b :: rest =>
      if (PAGE_SIZE e <=? count)%nat then (start, size, buf, count)
      else if size =? 0 then
        hidden_blocks_show_loop rest b (block_sz e) buf count
      else if wrap64 (start + size) =? b then
        hidden_blocks_show_loop rest start (wrap64 (size + block_sz e))
          buf count
      else
        let (buf1, n) :=
          sysfs_emit_at buf count
            (fmt_line start (wrap64 (start + size - 1)) size)
        in hidden_blocks_show_loop rest b (block_sz e) buf1 (count + n)%nat
  end.

(** [hidden_blocks_show]: the text left in the buffer and the returned
    count. The local [start] is uninitialised in C and is not read before
    [size] is non-zero; it starts at 0 here. *)
Definition hidden_blocks_show (st : state) : string * nat :=
  let '(start, size, buf, count) :=
    hidden_blocks_show_loop (hidden_blocks st) 0 0 EmptyString O in
  if negb (size =? 0) && (count <? PAGE_SIZE e)%nat then
    let (buf1, n) :=
      sysfs_emit_at buf count
        (fmt_line start (wrap64 (start + size - 1)) size)
    in (buf1, (count + n)%nat)
  else (buf, count).

(** *** Scavenge engine *)

(** The [for (total = size; size >= block_sz; size -= block_sz)] loop of
    [scavenge_store] on the list [bl]. Each round unlinks the first entry,
    so the recursion is on the list. Returns the list left, the final
    [size], and for every call of [add_memory_driver_managed] the block
    address with the return code; a non-zero code is a [pr_warn] line. *)
Fixpoint scavenge_loop (bl : list Z) (size : Z)
  : list Z * Z * list (Z * Z) :=
  if size >=? block_sz e then
    match bl with
    | [] => (bl, size, [])
    | b :: rest =>
        let nid := memory_add_physaddr_to_nid e b in
        let rc := add_memory_driver_managed e nid b (block_sz e) in
        let '(bl', size', calls) :=
          scavenge_loop rest (wrap64 (size - block_sz e)) in
        (bl', size', (b, rc) :: calls)
    end
  else (bl, size, []).

(** [scavenge_store]: return value, new globals, registration calls. *)
Definition scavenge_store (buf : string) (count : Z) (st : state)
  : Z * state * list (Z * Z) :=
  match kstrtoull e buf with
  | inl rc => (rc, st, [])
  | inr size =>
      if (size =? 0) || negb (size mod block_sz e =? 0) then
        (- EINVAL, st, [])
      else
        let total := size in
        let '(bl', size', calls) := scavenge_loop (hidden_blocks st) size in
        let st1 := set_hidden_blocks bl' st in
        let st2 := if total >? size' then disable_unload st1 else st1 in
        (count, st2, calls)
  end.

(** Blocks handed to the memory manager by a call, and those it refused. *)
Definition attempted (calls : list (Z * Z)) : nat := List.length calls.
Definition failed (calls : list (Z * Z)) : nat :=
  List.length (filter (fun c => negb (snd c =? 0)) calls).

(** [probe_store] (with [CONFIG_MEMSCAV_DEBUG]) *)
Definition probe_store (buf : string) (count : Z) (st : state) : Z * state :=
  match kstrtoull e buf with
  | inl rc => (rc, st)
  | inr phys_addr =>
      if negb (IS_ALIGNED phys_addr (block_sz e)) then (- EINVAL, st)
      else
        let nid := memory_add_physaddr_to_nid e phys_addr in
        let rc := add_memory_driver_managed e nid phys_addr (block_sz e) in
        if negb (rc =? 0) then (rc, st)
        else (count, disable_unload st)
  end.

(** [memscav_exit], as far as the globals go. *)
Definition memscav_exit (st : state) : state := ram_map_free st.

End Driver.

(** ** The administrative surface *)

(** The entry points reachable once the module is initialised. *)
Inductive op : Type :=
| OpRangesShow
| OpHiddenBlocksShow
| OpScavengeStore (buf : string) (count : Z)
| OpProbeStore (buf : string) (count : Z)
| OpExit.

(** One call, made while the kernel behaves as [e]. *)
Definition run_op (c : env * op) (st : state) : state :=
  let (e, o) := c in
  match o with
  | OpRangesShow => st
  | OpHiddenBlocksShow => st
  | OpScavengeStore buf count => snd (fst (scavenge_store e buf count st))
  | OpProbeStore buf count => snd (probe_store e buf count st)
  | OpExit => memscav_exit st
  end.

Definition run_ops (cs : list (env * op)) (st : state) : state :=
  fold_left (fun s c => run_op c s) cs st.

(** ** Fixtures: concrete kernels and states *)

Module Fixture.

(** A resource tracker holding the intervals [tracked]: the span
    [a, a + len - 1] is free when it meets none of them. *)
Definition tracker (tracked : list range) (a len : Z) : bool :=
  forallb (fun r => (a + len - 1 <? r_start r) || (r_end r <? a)) tracked.

(** A sorting routine standing for [sort]: straight insertion. *)
Fixpoint insert_range (cmp : range -> range -> Z) (x : range)
  (l : list range) : list range :=
  match l with
  | [] => [x]
  | y :: l' => if cmp x y <=? 0 then x :: l else y :: insert_range cmp x l'
  end.

Definition insertion_sort (l : list range) (cmp : range -> range -> Z)
  : list range :=
  fold_right (insert_range cmp) [] l.

(** A parser standing for [kstrtoull] on well-formed hexadecimal input. *)
Definition parse_hex (s : string) : Z + Z := inr (HexString.to_Z s).

(** The platform of the specification's scenario: blocks of 0x1000 bytes,
    RAM declared at 0x4000-0x7fff and 0x0-0xfff (the firmware lists them in
    that order, after a reserved region), only 0x0-0xfff known to the
    resource tracker, and every kernel service succeeding. *)
Definition scenario : env :=
  {| block_sz := 0x1000;
     PAGE_SIZE := 4096;
     alloc_ok := fun _ => true;
     region_disjoint := tracker [mk_range 0 0xFFF];
     memory_add_physaddr_to_nid := fun _ => 0;
     add_memory_driver_managed := fun _ _ _ => 0;
     try_module_get := true;
     kstrtoull := parse_hex;
     efi_memmap_enabled := true;
     efi_memmap := [mk_efi_md 0 0x1000 3; mk_efi_md 7 0x4000 4;
                    mk_efi_md 7 0 1];
     of_memory_nodes := [[(0x4000, 0x4000)]; [(0, 0x1000)]];
     sort := insertion_sort |}.

Definition with_try_module_get (b : bool) (e : env) : env :=
  {| block_sz := block_sz e; PAGE_SIZE := PAGE_SIZE e;
     alloc_ok := alloc_ok e; region_disjoint := region_disjoint e;
     memory_add_physaddr_to_nid := memory_add_physaddr_to_nid e;
     add_memory_driver_managed := add_memory_driver_managed e;
     try_module_get := b; kstrtoull := kstrtoull e;
     efi_memmap_enabled := efi_memmap_enabled e;
     efi_memmap := efi_memmap e; of_memory_nodes := of_memory_nodes e;
     sort := sort e |}.

Definition with_alloc_ok (f : nat -> bool) (e : env) : env :=
  {| block_sz := block_sz e; PAGE_SIZE := PAGE_SIZE e;
     alloc_ok := f; region_disjoint := region_disjoint e;
     memory_add_physaddr_to_nid := memory_add_physaddr_to_nid e;
     add_memory_driver_managed := add_memory_driver_managed e;
     try_module_get := try_module_get e; kstrtoull := kstrtoull e;
     efi_memmap_enabled := efi_memmap_enabled e;
     efi_memmap := efi_memmap e; of_memory_nodes := of_memory_nodes e;
     sort := sort e |}.

Definition with_region_disjoint (f : Z -> Z -> bool) (e : env) : env :=
  {| block_sz := block_sz e; PAGE_SIZE := PAGE_SIZE e;
     alloc_ok := alloc_ok e; region_disjoint := f;
     memory_add_physaddr_to_nid := memory_add_physaddr_to_nid e;
     add_memory_driver_managed := add_memory_driver_managed e;
     try_module_get := try_module_get e; kstrtoull := kstrtoull e;
     efi_memmap_enabled := efi_memmap_enabled e;
     efi_memmap := efi_memmap e; of_memory_nodes := of_memory_nodes e;
     sort := sort e |}.

(** The range map of the scenario. *)
Definition scenario_ranges : list range :=
  [mk_range 0 0xFFF; mk_range 0x4000 0x7FFF].

(** The globals once the range map of the scenario is built. *)
Definition mapped : state := set_ranges scenario_ranges initial_state.

(** The globals with the hidden blocks [bl] on the list, counted. *)
Definition holding (bl : list Z) : state :=
  set_hidden_blocks_cnt (wrap32 (Z.of_nat (List.length bl)))
    (set_hidden_blocks bl mapped).

(** The four blocks of the second range of the scenario. *)
Definition four_blocks : list Z := [0x4000; 0x5000; 0x6000; 0x7000].

(** The scenario with an allocator whose second call fails. *)
Definition second_alloc_fails : env :=
  with_alloc_ok (fun k => negb (k =? 1)%nat) scenario.

(** The scenario with a resource tracker that knows every address. *)
Definition all_tracked : env := with_region_disjoint (fun _ _ => false) scenario.

(** Two blocks of RAM at the very top of the 64-bit address space. *)
Definition top_range : range := mk_range 0xFFFFFFFFFFFFE000 U64_MAX.

Definition top_mapped : state := set_ranges [top_range] initial_state.

End Fixture.

(** ** Vocabulary of the properties *)

(** The counter agrees with the list (as far as an [unsigned int] can). *)
Definition cnt_inv (st : state) : Prop :=
  hidden_blocks_cnt st = wrap32 (Z.of_nat (List.length (hidden_blocks st))).

(** Every allocator call made between [st] and [st'] succeeded. *)
Definition allocs_succeeded (e : env) (st st' : state) : Prop :=
  forall k, (n_alloc st <= k < n_alloc st')%nat -> alloc_ok e k = true.

(** Some allocator call made between [st] and [st'] failed. *)
Definition alloc_failed (e : env) (st st' : state) : Prop :=
  exists k, (n_alloc st <= k < n_alloc st')%nat /\ alloc_ok e k = false.

(** The globals a call has reached, returned or not. *)
Definition outcome_state (o : outcome) : state :=
  match o with Returned _ st => st | Running st => st end.

Definition loop_state (r : loop_result) : state :=
  match r with LoopExit st => st | LoopGoto _ st => st | LoopFuel st => st end.

(** What a scan loop started in [st] and stopped as [r] has done to the
    globals: it only allocated, it left the range map and the flag alone,
    it kept the counter in step with the list, and it took [goto out]
    exactly on a failed allocation, with [-ENOMEM]. *)
Definition scan_frame (e : env) (st : state) (r : loop_result) : Prop :=
  (n_alloc st <= n_alloc (loop_state r))%nat /\
  ranges (loop_state r) = ranges st /\
  unloadable (loop_state r) = unloadable st /\
  (cnt_inv st -> cnt_inv (loop_state r)) /\
  match r with
  | LoopGoto rc st' => rc = - ENOMEM /\ alloc_failed e st st'
  | _ => allocs_succeeded e st (loop_state r)
  end.

(** A range the scan handles without wrapping: it lies in the address
    space with at least one block between its end, and two between its
    start, and the end of the address space. *)
Definition safe_range (e : env) (r : range) : Prop :=
  0 <= r_start r /\
  r_end r + block_sz e <= U64_MODULUS /\
  r_start r + 2 * block_sz e <= U64_MODULUS.

(** The registration call [scavenge_store] makes for the block at [b]. *)
Definition register (e : env) (b : Z) : Z * Z :=
  (b, add_memory_driver_managed e (memory_add_physaddr_to_nid e b) b
        (block_sz e)).

(** The range a provider entry (base, size) stands for. *)
Definition entry_range (entry : Z * Z) : range :=
  mk_range (fst entry) (wrap64 (fst entry + snd entry - 1)).

(** The entries the EFI provider reports: the conventional-memory
    descriptors, each with its base and its size in bytes. *)
Definition conventional_entries (mds : list efi_memory_desc) : list (Z * Z) :=
  map (fun md => (md_phys_addr md, efi_md_size md))
    (filter (fun md => md_type md =? EFI_CONVENTIONAL_MEMORY) mds).

Definition efi_entries (e : env) : list (Z * Z) :=
  conventional_entries (efi_memmap e).

(** The entries the device-tree provider reports: the [reg] pairs of all
    memory nodes. *)
Definition fdt_entries (e : env) : list (Z * Z) :=
  List.concat (of_memory_nodes e).

(** Adding the ranges of a list of entries one after the other, giving
    up at the first failure: what both provider loops come down to. *)
Fixpoint add_entries (e : env) (entries : list (Z * Z)) (st : state)
  : Z * state :=
  match entries with
  | [] => (0, st)
  | (base, size) :: rest =>
      let (rc, st1) := ram_map_add e base size st in
      if negb (rc =? 0) then (rc, ram_map_free st1)
      else add_entries e rest st1
  end.

(** Ascending by start. *)
Definition sorted_by_start (l : list range) : Prop :=
  StronglySorted (fun a b => r_start a <= r_start b) l.

(** The range map [rs] is the sorted image of the provider's [entries]:
    ascending by start, one range per entry, each range that of an
    entry. *)
Definition built_from (entries : list (Z * Z)) (rs : list range) : Prop :=
  sorted_by_start rs /\
  Permutation (map entry_range entries) rs /\
  List.length rs = List.length entries.

(** *** The scanner as the specification words it

    For one range: candidate addresses start at the start of the range
    rounded up to the block size and advance by the block size for as long
    as [addr + block_size <= range.end + 1]; the free ones become hidden
    blocks. *)

Definition round_up (x a : Z) : Z := ((x + a - 1) / a) * a.

Fixpoint spec_candidates (n : nat) (bs rend addr : Z) : list Z :=
  match n with
  | O => []
  | S n' =>
      if addr + bs <=? rend + 1
      then addr :: spec_candidates n' bs rend (addr + bs)
      else []
  end.

Definition spec_scan_range (e : env) (r : range) : list Z :=
  filter (fun a => region_disjoint e a (block_sz e))
    (spec_candidates (Z.to_nat (r_end r / block_sz e + 1)) (block_sz e)
       (r_end r) (round_up (r_start r) (block_sz e))).

Definition spec_scan (e : env) (rs : list range) : list Z :=
  flat_map (spec_scan_range e) rs.

(** *** The report as the specification words it

    The list is cut into maximal runs of address-contiguous blocks (the
    next block's address is the previous one's plus the block size, in
    64-bit arithmetic); each run is one line
    [run_start-run_end (run_size)]. *)

Fixpoint runs (bs : Z) (bl : list Z) : list (list Z) :=
  match bl with
  | [] => []
  | b :: rest =>
      match runs bs rest with
      | (c :: run) :: more =>
          if c =? wrap64 (b + bs) then (b :: c :: run) :: more
          else [b] :: (c :: run) :: more
      | _ => [[b]]
      end
  end.

Definition run_size (bs : Z) (run : list Z) : Z :=
  Z.of_nat (List.length run) * bs.

Definition run_line (bs : Z) (run : list Z) : string :=
  match run with
  | [] => EmptyString
  | a :: _ =>
      fmt_line a (wrap64 (a + run_size bs run - 1)) (run_size bs run)
  end.

Definition render_runs (bs : Z) (bl : list Z) : string :=
  fold_right String.append EmptyString (map (run_line bs) (runs bs bl)).

(** A run: each next address is the previous one plus the block size. *)
Fixpoint contiguous (bs : Z) (run : list Z) : Prop :=
  match run with
  | a :: ((b :: _) as rest) => b = wrap64 (a + bs) /\ contiguous bs rest
  | _ => True
  end.

(** Runs that cannot be extended: none continues the one before it. *)
Fixpoint runs_maximal (bs : Z) (rs : list (list Z)) : Prop :=
  match rs with
  | r1 :: ((r2 :: _) as rest) =>
      hd 0 r2 <> wrap64 (last r1 0 + bs) /\ runs_maximal bs rest
  | _ => True
  end.

(** The lines of a text: its newline characters. *)
Fixpoint count_lines (s : string) : nat :=
  match s with
  | EmptyString => O
  | String c s' =>
      if Ascii.eqb c (ascii_of_nat 10) then S (count_lines s')
      else count_lines s'
  end.

(** What [hidden_blocks_show] does once its loop has stopped with the
    locals [start], [size], [count] and the buffer in [r]. *)
Definition show_finish (e : env) (r : Z * Z * string * nat) : string * nat :=
  let '(start, size, buf, count) := r in
  if negb (size =? 0) && (count <? PAGE_SIZE e)%nat then
    let (buf1, n) :=
      sysfs_emit_at e buf count
        (fmt_line start (wrap64 (start + size - 1)) size)
    in (buf1, (count + n)%nat)
  else (buf, count).

(** [k] contiguous blocks starting at [a]. *)
Fixpoint contiguous_blocks (bs a : Z) (k : nat) : list Z :=
  match k with
  | O => []
  | S k' => a :: contiguous_blocks bs (a + bs) k'
  end.

(** [count] isolated blocks: every other block from [a] on. *)
Fixpoint isolated_blocks (bs a : Z) (count : nat) : list Z :=
  match count with
  | O => []
  | S count' => a :: isolated_blocks bs (a + 2 * bs) count'
  end.

(** ** The module entry point *)

(** [memscav_init]. [config_of] says whether the driver is built with
    [CONFIG_OF]; [kobj_ok] whether [kobject_create_and_add] gave an
    object; [sysfs_rc] is the return code of [sysfs_create_group]. The
    local [rc] is only read after a call has set it, so a provider that
    is skipped counts as returning 0. [fuel] is the fuel of the scan. *)
Definition memscav_init (e : env) (config_of kobj_ok : bool) (sysfs_rc : Z)
  (fuel : nat) (st : state) : outcome :=
  if negb kobj_ok then Returned (- ENOMEM) st
  else
    let (rc1, st1) :=
      if efi_memmap_enabled e then ram_map_from_efi e st else (0, st) in
    if negb (rc1 =? 0) then Returned rc1 (ram_map_free st1)
    else
      let (rc2, st2) :=
        if config_of && negb (efi_memmap_enabled e)
        then ram_map_from_fdt e st1 else (0, st1) in
      if negb (rc2 =? 0) then Returned rc2 (ram_map_free st2)
      else
        match fst (find_hidden_blocks e fuel st2) with
        | Running st3 => Running st3
        | Returned rc3 st3 =>
            if negb (rc3 =? 0) then Returned rc3 (ram_map_free st3)
            else if negb (sysfs_rc =? 0)
                 then Returned sysfs_rc (ram_map_free st3)
                 else Returned 0 st3
        end.

(** ** Further vocabulary *)

(** The first [n] characters of a text. *)
Definition cut (n : nat) (s : string) : string := substring 0 n s.

(** The line of [ranges_show] for one range. *)
Definition range_line (r : range) : string :=
  fmt_line (r_start r) (r_end r) (range_len r).

(** The whole report on a range map, one line per range, in map order. *)
Definition ranges_report (rs : list range) : string :=
  fold_right String.append EmptyString (map range_line rs).

(** The entries the provider chosen by [memscav_init] reports. *)
Definition init_entries (e : env) (config_of : bool) : list (Z * Z) :=
  if efi_memmap_enabled e then efi_entries e
  else if config_of then fdt_entries e
  else [].

(** Ranges in ascending order with a gap of at least one byte between
    the end of each and the start of the next ones. *)
Definition separated (rs : list range) : Prop :=
  StronglySorted (fun r1 r2 => r_end r1 < r_start r2) rs.

(** Blocks of [bs] bytes in ascending order, none reaching into the next:
    no two of them overlap. *)
Definition blocks_apart (bs : Z) (bl : list Z) : Prop :=
  StronglySorted (fun a b => a + bs <= b) bl.

(** A hidden block as the scan should find it: block-aligned, reported
    free by the resource tracker, and lying whole inside a range of
    [rs]. *)
Definition sound_block (e : env) (rs : list range) (b : Z) : Prop :=
  (block_sz e | b) /\
  region_disjoint e b (block_sz e) = true /\
  exists r, In r rs /\ r_start r <= b /\ b + block_sz e - 1 <= r_end r.

(** The allocator calls numbered from [from] on, [n] of them, all
    succeed. *)
Definition allocs_ok_window (e : env) (from n : nat) : Prop :=
  forall k, (from <= k < from + n)%nat -> alloc_ok e k = true.

(** The scenario with a memory manager that refuses the block at
    0x4000. *)
Definition refusing_0x4000 : env :=
  {| block_sz := block_sz Fixture.scenario;
     PAGE_SIZE := PAGE_SIZE Fixture.scenario;
     alloc_ok := alloc_ok Fixture.scenario;
     region_disjoint := region_disjoint Fixture.scenario;
     memory_add_physaddr_to_nid := memory_add_physaddr_to_nid Fixture.scenario;
     add_memory_driver_managed :=
       fun _ phys _ => if phys =? 0x4000 then - EINVAL else 0;
     try_module_get := try_module_get Fixture.scenario;
     kstrtoull := kstrtoull Fixture.scenario;
     efi_memmap_enabled := efi_memmap_enabled Fixture.scenario;
     efi_memmap := efi_memmap Fixture.scenario;
     of_memory_nodes := of_memory_nodes Fixture.scenario;
     sort := sort Fixture.scenario |}.

(** The scenario with no EFI memory map, so that the device tree is the
    provider. *)
Definition device_tree_platform : env :=
  {| block_sz := block_sz Fixture.scenario;
     PAGE_SIZE := PAGE_SIZE Fixture.scenario;
     alloc_ok := alloc_ok Fixture.scenario;
     region_disjoint := region_disjoint Fixture.scenario;
     memory_add_physaddr_to_nid := memory_add_physaddr_to_nid Fixture.scenario;
     add_memory_driver_managed := add_memory_driver_managed Fixture.scenario;
     try_module_get := try_module_get Fixture.scenario;
     kstrtoull := kstrtoull Fixture.scenario;
     efi_memmap_enabled := false;
     efi_memmap := efi_memmap Fixture.scenario;
     of_memory_nodes := of_memory_nodes Fixture.scenario;
     sort := sort Fixture.scenario |}.

(** A small platform: blocks of 16 bytes, only the first block known to
    the resource tracker, and a range map of two separated ranges. *)
Definition small_platform : env :=
  {| block_sz := 0x10;
     PAGE_SIZE := PAGE_SIZE Fixture.scenario;
     alloc_ok := alloc_ok Fixture.scenario;
     region_disjoint := Fixture.tracker [mk_range 0 0xF];
     memory_add_physaddr_to_nid := memory_add_physaddr_to_nid Fixture.scenario;
     add_memory_driver_managed := add_memory_driver_managed Fixture.scenario;
     try_module_get := try_module_get Fixture.scenario;
     kstrtoull := kstrtoull Fixture.scenario;
     efi_memmap_enabled := efi_memmap_enabled Fixture.scenario;
     efi_memmap := efi_memmap Fixture.scenario;
     of_memory_nodes := of_memory_nodes Fixture.scenario;
     sort := sort Fixture.scenario |}.

Definition small_mapped : state :=
  set_ranges [mk_range 0 0x3F; mk_range 0x84 0xBF] initial_state.

(** ** Machine arithmetic *)

Lemma wrap64_small (z : Z) : is_u64 z -> wrap64 z = z.
Proof. unfold is_u64, wrap64. intros H. now apply Z.mod_small. Qed.

Lemma wrap64_range (z : Z) : is_u64 (wrap64 z).
Proof.
  unfold is_u64, wrap64, U64_MODULUS. apply Z.mod_pos_bound. reflexivity.
Qed.

Lemma wrap64_add_l (a b : Z) : wrap64 (wrap64 a + b) = wrap64 (a + b).
Proof. unfold wrap64. apply Zplus_mod_idemp_l. Qed.

(** ** The scavenge engine *)

Section Scavenge.

Variable e : env.
Hypothesis block_sz_pos : 0 < block_sz e.

(** What the loop of [scavenge_store] does, whatever the size: it unlinks
    a prefix of the list, registers exactly those blocks in order, lowers
    [size] by one block per call, and stops with the list empty or less
    than a block left to recover. *)
Lemma scavenge_loop_inv (bl : list Z) :
  forall size bl' size' calls,
    is_u64 size ->
    scavenge_loop e bl size = (bl', size', calls) ->
    bl = map fst calls ++ bl' /\
    calls = map (register e) (map fst calls) /\
    size' = size - Z.of_nat (List.length calls) * block_sz e /\
    0 <= size' /\
    (bl' = [] \/ size' < block_sz e).
Proof.
  induction bl as [|b rest IH]; intros size bl' size' calls Hsz Hrun.
  - simpl in Hrun. unfold is_u64 in Hsz.
    destruct (size >=? block_sz e); inversion Hrun; subst; simpl;
      repeat split; auto; lia.
  - simpl in Hrun. destruct (Z.geb_spec size (block_sz e)) as [Hge|Hlt].
    + destruct (scavenge_loop e rest (wrap64 (size - block_sz e)))
        as [[bl1 size1] calls1] eqn:Hrec.
      inversion Hrun; subst; clear Hrun.
      assert (Hsmall : is_u64 (size - block_sz e))
        by (unfold is_u64 in *; lia).
      rewrite (wrap64_small _ Hsmall) in Hrec.
      destruct (IH _ _ _ _ Hsmall Hrec) as (Hl & Hc & Hs & Hpos & Hstop).
      cbn [map fst snd app List.length]. repeat split.
      * now rewrite <- Hl.
      * unfold register at 1. now rewrite <- Hc.
      * rewrite Nat2Z.inj_succ. lia.
      * exact Hpos.
      * exact Hstop.
    + inversion Hrun; subst. simpl. unfold is_u64 in Hsz.
      repeat split; auto; lia.
Qed.

(** A request for [n] blocks on a list [bl]: the first [n] blocks, or all
    of them when there are fewer, are unlinked and registered. *)
Lemma scavenge_loop_blocks (bl : list Z) (n : nat) :
  Z.of_nat n * block_sz e < U64_MODULUS ->
  scavenge_loop e bl (Z.of_nat n * block_sz e) =
    (skipn n bl,
     Z.of_nat (n - List.length bl) * block_sz e,
     map (register e) (firstn n bl)).
Proof.
  revert n. induction bl as [|b rest IH]; intros n Hn.
  - simpl. rewrite skipn_nil, firstn_nil, Nat.sub_0_r.
    now destruct (Z.of_nat n * block_sz e >=? block_sz e).
  - destruct n as [|n].
    + simpl. destruct (Z.geb_spec 0 (block_sz e)); [lia | reflexivity].
    + cbn [scavenge_loop].
      destruct (Z.geb_spec (Z.of_nat (S n) * block_sz e) (block_sz e));
        [|nia].
      replace (Z.of_nat (S n) * block_sz e - block_sz e)
        with (Z.of_nat n * block_sz e) by lia.
      rewrite wrap64_small by (unfold is_u64; nia).
      rewrite IH by nia. reflexivity.
Qed.

Lemma failed_register_all_ok (l : list Z) :
  (forall b, In b l -> snd (register e b) = 0) ->
  failed (map (register e) l) = 0%nat.
Proof.
  unfold failed. induction l as [|b l IH]; intros Hok; [reflexivity|].
  cbn [map filter]. rewrite (Hok b) by (now left).
  cbn [Z.eqb negb]. apply IH.
  intros c Hc. apply Hok. now right.
Qed.

End Scavenge.

(** All a caller of [scavenge_store] gets back from a request that
    passes validation is the byte count it wrote, whatever the globals
    hold and whatever the memory manager answers. *)
Lemma scavenge_store_returns_count
  (e : env) (st : state) (buf : string) (count size : Z) :
  kstrtoull e buf = inr size ->
  size <> 0 -> size mod block_sz e = 0 ->
  fst (fst (scavenge_store e buf count st)) = count.
Proof.
  intros Hparse Hnz Hmod. unfold scavenge_store. rewrite Hparse, Hmod.
  destruct (Z.eqb_spec size 0) as [H0|_]; [contradiction|].
  cbn [Z.eqb negb orb].
  now destruct (scavenge_loop e (hidden_blocks st) size) as [[bl' size'] calls].
Qed.

(** C3 as stated fails: the call reports no attempted or failed numbers.
    [scavenge_store] returns the byte count of the write and nothing
    else. On the four blocks of the scenario a request of 0x2000 bytes
    returns 6 when both registrations succeed, 6 when the memory manager
    refuses 0x4000, and 6 on an empty list where nothing is attempted:
    no reading of the return value gives the numbers of blocks attempted
    and failed. *)
Lemma scavenge_return_value_reports_no_counts :
  let '(ret_ok, _, calls_ok) :=
    scavenge_store Fixture.scenario "0x2000" 6
      (Fixture.holding Fixture.four_blocks) in
  let '(ret_refused, _, calls_refused) :=
    scavenge_store refusing_0x4000 "0x2000" 6
      (Fixture.holding Fixture.four_blocks) in
  let '(ret_empty, _, calls_empty) :=
    scavenge_store Fixture.scenario "0x2000" 6 (Fixture.holding []) in
  ret_ok = 6 /\ ret_refused = 6 /\ ret_empty = 6 /\
  (attempted calls_ok, failed calls_ok) = (2%nat, 0%nat) /\
  (attempted calls_refused, failed calls_refused) = (2%nat, 1%nat) /\
  (attempted calls_empty, failed calls_empty) = (0%nat, 0%nat) /\
  ~ (exists report : Z -> nat * nat,
       report ret_ok = (attempted calls_ok, failed calls_ok) /\
       report ret_refused = (attempted calls_refused, failed calls_refused)).
Proof.
  vm_compute. repeat split.
  intros (report & Hok & Hrefused). rewrite Hok in Hrefused. discriminate.
Qed.

(** C3, amended. A scavenge request for [N * block_sz] bytes on a list
    holding at least [N] hidden blocks, every registration succeeding,
    unlinks exactly the first [N] blocks in list order: the list left is
    the old list without its first [N] entries, and the memory manager
    is handed those [N] blocks, once each, front to back, accepting all
    of them. The call reports no attempted or failed numbers: for
    [N >= 1] it returns the byte count of the write, as it does for the
    same request whatever the globals hold. *)
Theorem scavenge_consumes_first_N
  (e : env) (st : state) (buf : string) (count : Z) (N : nat) :
  0 < block_sz e ->
  Z.of_nat N * block_sz e < U64_MODULUS ->
  kstrtoull e buf = inr (Z.of_nat N * block_sz e) ->
  (N <= List.length (hidden_blocks st))%nat ->
  (forall b, In b (firstn N (hidden_blocks st)) -> snd (register e b) = 0) ->
  let '(ret, st', calls) := scavenge_store e buf count st in
  hidden_blocks st' = skipn N (hidden_blocks st) /\
  map fst calls = firstn N (hidden_blocks st) /\
  hidden_blocks st = map fst calls ++ hidden_blocks st' /\
  Forall (fun c => snd c = 0) calls /\
  (N <> 0%nat ->
   ret = count /\
   forall st2, fst (fst (scavenge_store e buf count st2)) = count).
Proof.
  intros Hbs Hfit Hparse Hlen Hok.
  assert (Hret : N <> 0%nat ->
            forall st2, fst (fst (scavenge_store e buf count st2)) = count).
  { intros HN st2. apply (scavenge_store_returns_count e st2 buf count _ Hparse).
    - nia.
    - apply Z_mod_mult. }
  unfold scavenge_store in *. rewrite Hparse in *.
  destruct N as [|N].
  - cbn. repeat split; auto; congruence.
  - destruct (Z.eqb_spec (Z.of_nat (S N) * block_sz e) 0) as [H0|_]; [nia|].
    rewrite Z_mod_mult in *. cbn [Z.eqb negb orb] in *.
    rewrite (scavenge_loop_blocks e Hbs) by exact Hfit.
    assert (Hfst : map fst (map (register e) (firstn (S N) (hidden_blocks st)))
                   = firstn (S N) (hidden_blocks st)).
    { rewrite map_map. unfold register. simpl. apply map_id. }
    assert (Hst : forall s, hidden_blocks
                    (if Z.of_nat (S N) * block_sz e >?
                        Z.of_nat (S N - List.length (hidden_blocks st)) *
                        block_sz e
                     then disable_unload e (set_hidden_blocks s st)
                     else set_hidden_blocks s st) = s).
    { intros s. destruct (_ >? _); [|reflexivity].
      unfold disable_unload. simpl.
      destruct (unloadable st); simpl; [|reflexivity].
      now destruct (try_module_get e). }
    rewrite Hst, Hfst. split; [reflexivity|]. split; [reflexivity|].
    split; [now rewrite firstn_skipn|]. split.
    + apply Forall_forall. intros c Hc. apply in_map_iff in Hc.
      destruct Hc as (b & <- & Hb). now apply Hok.
    + intros HN. split; [reflexivity|]. now apply Hret.
Qed.

(** C3 amended, at the scenario: a request of 0x2000 bytes against the
    four blocks takes 0x4000 and 0x5000 and leaves 0x6000 and 0x7000. *)
Lemma scavenge_consumes_first_N_witness :
  let '(ret, st', calls) :=
    scavenge_store Fixture.scenario "0x2000" 6
      (Fixture.holding Fixture.four_blocks) in
  hidden_blocks st' = [0x6000; 0x7000] /\
  map fst calls = [0x4000; 0x5000] /\
  hidden_blocks (Fixture.holding Fixture.four_blocks) =
    map fst calls ++ hidden_blocks st' /\
  Forall (fun c => snd c = 0) calls /\
  (2%nat <> 0%nat ->
   ret = 6 /\
   forall st2,
     fst (fst (scavenge_store Fixture.scenario "0x2000" 6 st2)) = 6).
Proof.
  apply (scavenge_consumes_first_N Fixture.scenario
           (Fixture.holding Fixture.four_blocks) "0x2000" 6 2).
  - reflexivity.
  - reflexivity.
  - reflexivity.
  - simpl. lia.
  - intros b _. reflexivity.
Defined.

(** C4. A scavenge request whose parsed size is zero or not a multiple of
    the block size returns [-EINVAL], makes no registration call and
    leaves every global as it was: the hidden block list is the same and
    [unloadable] keeps its value, so it remains true if it was. *)
Theorem scavenge_invalid_size_no_change
  (e : env) (st : state) (buf : string) (count size : Z) :
  kstrtoull e buf = inr size ->
  size = 0 \/ size mod block_sz e <> 0 ->
  scavenge_store e buf count st = (- EINVAL, st, []) /\
  (unloadable st = true ->
   unloadable (snd (fst (scavenge_store e buf count st))) = true).
Proof.
  intros Hparse Hbad.
  assert (Hret : scavenge_store e buf count st = (- EINVAL, st, [])).
  { unfold scavenge_store. rewrite Hparse.
    destruct Hbad as [-> | Hmod]; [reflexivity|].
    destruct (Z.eqb_spec (size mod block_sz e) 0) as [H0|_]; [contradiction|].
    now rewrite orb_true_r. }
  split; [exact Hret|]. now rewrite Hret.
Qed.

(** C4, at the scenario: 0x1800 is not a multiple of 0x1000. *)
Lemma scavenge_invalid_size_no_change_witness :
  scavenge_store Fixture.scenario "0x1800" 6
    (Fixture.holding Fixture.four_blocks)
  = (- EINVAL, Fixture.holding Fixture.four_blocks, []) /\
  (unloadable (Fixture.holding Fixture.four_blocks) = true ->
   unloadable (snd (fst (scavenge_store Fixture.scenario "0x1800" 6
                           (Fixture.holding Fixture.four_blocks)))) = true).
Proof.
  apply (scavenge_invalid_size_no_change Fixture.scenario
           (Fixture.holding Fixture.four_blocks) "0x1800" 6 0x1800).
  - reflexivity.
  - right. vm_compute. discriminate.
Defined.

(** C5 as stated fails: a partial run is not reported. Eight blocks
    asked for on the four blocks of the scenario drain the list and
    return 6; eight asked for with eight blocks there return 6 as well:
    the return value does not tell the caller that fewer blocks were
    attempted than requested, nor how many. *)
Lemma scavenge_partial_run_returns_like_full_run :
  let '(ret_partial, st_partial, calls_partial) :=
    scavenge_store Fixture.scenario "0x8000" 6
      (Fixture.holding Fixture.four_blocks) in
  let '(ret_full, st_full, calls_full) :=
    scavenge_store Fixture.scenario "0x8000" 6
      (Fixture.holding (contiguous_blocks 0x1000 0x4000 8)) in
  hidden_blocks st_partial = [] /\ hidden_blocks st_full = [] /\
  attempted calls_partial = 4%nat /\ attempted calls_full = 8%nat /\
  ret_partial = 6 /\ ret_full = 6 /\
  ~ (exists report : Z -> nat,
       report ret_partial = attempted calls_partial /\
       report ret_full = attempted calls_full).
Proof.
  vm_compute. repeat split.
  intros (report & Hpartial & Hfull). rewrite Hpartial in Hfull.
  discriminate.
Qed.

(** C5, amended. A scavenge request for [N * block_sz] bytes on a list
    holding fewer than [N] hidden blocks unlinks every block, so that the
    list is empty, hands exactly the blocks that were on the list to the
    memory manager, once each and in order, which is fewer than [N]
    registrations, and does not return an error: it returns the byte
    count of the write, the same value as for a complete request and
    whatever the globals hold, so nothing reports the run as partial. *)
Theorem scavenge_drains_short_list
  (e : env) (st : state) (buf : string) (count : Z) (N : nat) :
  0 < block_sz e ->
  Z.of_nat N * block_sz e < U64_MODULUS ->
  kstrtoull e buf = inr (Z.of_nat N * block_sz e) ->
  (List.length (hidden_blocks st) < N)%nat ->
  0 <= count ->
  let '(ret, st', calls) := scavenge_store e buf count st in
  ret = count /\ 0 <= ret /\
  hidden_blocks st' = [] /\
  map fst calls = hidden_blocks st /\
  (List.length calls < N)%nat /\
  (forall st2, fst (fst (scavenge_store e buf count st2)) = count).
Proof.
  intros Hbs Hfit Hparse Hlen Hcount.
  assert (Hret : forall st2,
            fst (fst (scavenge_store e buf count st2)) = count).
  { intros st2. apply (scavenge_store_returns_count e st2 buf count _ Hparse).
    - nia.
    - apply Z_mod_mult. }
  unfold scavenge_store in *. rewrite Hparse in *.
  destruct (Z.eqb_spec (Z.of_nat N * block_sz e) 0) as [H0|_]; [nia|].
  rewrite Z_mod_mult in *. cbn [Z.eqb negb orb] in *.
  rewrite (scavenge_loop_blocks e Hbs) by exact Hfit.
  rewrite skipn_all2, firstn_all2 by lia.
  assert (Hfst : map fst (map (register e) (hidden_blocks st))
                 = hidden_blocks st).
  { rewrite map_map. unfold register. simpl. apply map_id. }
  assert (Hst : forall c : bool, hidden_blocks
                  (if c then disable_unload e (set_hidden_blocks [] st)
                   else set_hidden_blocks [] st) = []).
  { intros [|]; [|reflexivity]. unfold disable_unload. simpl.
    destruct (unloadable st); simpl; [|reflexivity].
    now destruct (try_module_get e). }
  rewrite Hst, Hfst, length_map.
  repeat split; auto.
Qed.

(** C5 amended, at the scenario: eight blocks asked for, four there. *)
Lemma scavenge_drains_short_list_witness :
  let '(ret, st', calls) :=
    scavenge_store Fixture.scenario "0x8000" 6
      (Fixture.holding Fixture.four_blocks) in
  ret = 6 /\ 0 <= ret /\
  hidden_blocks st' = [] /\
  map fst calls = Fixture.four_blocks /\
  (List.length calls < 8)%nat /\
  (forall st2,
     fst (fst (scavenge_store Fixture.scenario "0x8000" 6 st2)) = 6).
Proof.
  apply (scavenge_drains_short_list Fixture.scenario
           (Fixture.holding Fixture.four_blocks) "0x8000" 6 8).
  - reflexivity.
  - reflexivity.
  - reflexivity.
  - simpl. lia.
  - lia.
Defined.

(** ** The one-way flag *)

Lemma disable_unload_locked (e : env) (st : state) :
  unloadable st = false -> unloadable (disable_unload e st) = false.
Proof. intros H. unfold disable_unload. now rewrite H. Qed.

Lemma disable_unload_locks (e : env) (st : state) :
  unloadable st = false \/ try_module_get e = true ->
  unloadable (disable_unload e st) = false.
Proof.
  intros [H|H]; [now apply disable_unload_locked|].
  unfold disable_unload. rewrite H.
  destruct (unloadable st) eqn:Hu; [reflexivity | exact Hu].
Qed.

Lemma scavenge_store_locked (e : env) (buf : string) (count : Z) (st : state) :
  unloadable st = false ->
  unloadable (snd (fst (scavenge_store e buf count st))) = false.
Proof.
  intros H. unfold scavenge_store.
  destruct (kstrtoull e buf) as [rc|size]; [exact H|].
  destruct ((size =? 0) || negb (size mod block_sz e =? 0)); [exact H|].
  destruct (scavenge_loop e (hidden_blocks st) size) as [[bl' size'] calls].
  cbn [fst snd]. destruct (size >? size'); [|exact H].
  now apply disable_unload_locked.
Qed.

Lemma probe_store_locked (e : env) (buf : string) (count : Z) (st : state) :
  unloadable st = false ->
  unloadable (snd (probe_store e buf count st)) = false.
Proof.
  intros H. unfold probe_store.
  destruct (kstrtoull e buf) as [rc|phys]; [exact H|].
  destruct (negb (IS_ALIGNED phys (block_sz e))); [exact H|].
  destruct (negb (_ =? 0)); [exact H|].
  now apply disable_unload_locked.
Qed.

(** No entry point gives the flag back. *)
Lemma run_op_locked (c : env * op) (st : state) :
  unloadable st = false -> unloadable (run_op c st) = false.
Proof.
  intros H. destruct c as [e [| |buf count|buf count|]]; cbn [run_op].
  - exact H.
  - exact H.
  - now apply scavenge_store_locked.
  - now apply probe_store_locked.
  - exact H.
Qed.

Lemma run_ops_locked (cs : list (env * op)) :
  forall st, unloadable st = false -> unloadable (run_ops cs st) = false.
Proof.
  induction cs as [|c cs IH]; intros st H; [exact H|].
  cbn [run_ops fold_left]. apply IH. now apply run_op_locked.
Qed.

(** C2 as stated fails: when [try_module_get] refuses, a valid request
    that unlinks a block returns with [unloadable] still true. *)
Lemma scavenge_flag_stays_when_module_get_fails :
  let e := Fixture.with_try_module_get false Fixture.scenario in
  let st := Fixture.holding Fixture.four_blocks in
  let '(ret, st', calls) := scavenge_store e "0x1000" 6 st in
  kstrtoull e "0x1000" = inr 0x1000 /\
  0x1000 <> 0 /\ 0x1000 mod block_sz e = 0 /\
  map fst calls = [0x4000] /\
  hidden_blocks st' = [0x5000; 0x6000; 0x7000] /\
  ret = 6 /\
  unloadable st' <> false.
Proof. vm_compute. repeat split; discriminate. Qed.

(** C2, amended. A scavenge call whose size passes validation and that
    unlinks at least one hidden block, whatever its registration gives,
    returns with [unloadable] false provided the flag was already false
    or [try_module_get] succeeds; and from then on no sequence of calls of
    the entry points, under any behaviour of the kernel, makes it true
    again. *)
Theorem scavenge_flag_one_way
  (e : env) (st : state) (buf : string) (count size : Z) :
  0 < block_sz e ->
  is_u64 size ->
  kstrtoull e buf = inr size ->
  size <> 0 ->
  size mod block_sz e = 0 ->
  unloadable st = false \/ try_module_get e = true ->
  let '(ret, st', calls) := scavenge_store e buf count st in
  calls <> [] ->
  unloadable st' = false /\
  forall cs, unloadable (run_ops cs st') = false.
Proof.
  intros Hbs Hu64 Hparse Hnz Hmod Hlock. unfold scavenge_store.
  rewrite Hparse, Hmod.
  destruct (Z.eqb_spec size 0) as [H0|_]; [contradiction|].
  cbn [Z.eqb negb orb].
  destruct (scavenge_loop e (hidden_blocks st) size)
    as [[bl' size'] calls] eqn:Hloop.
  intros Hcalls.
  destruct (scavenge_loop_inv e Hbs _ _ _ _ _ Hu64 Hloop)
    as (_ & _ & Hsize & _ & _).
  assert (Hlen : (0 < List.length calls)%nat)
    by (destruct calls; [contradiction | simpl; lia]).
  destruct (Z.gtb_spec size size') as [_|Hle]; [|nia].
  assert (Hfalse : unloadable (disable_unload e (set_hidden_blocks bl' st))
                   = false) by now apply disable_unload_locks.
  split; [exact Hfalse|]. intros cs. now apply run_ops_locked.
Qed.

(** C2 amended, at the scenario: the request of 0x2000 bytes, followed by
    a further request, a probe and the two listings. *)
Lemma scavenge_flag_one_way_witness :
  let '(ret, st', calls) :=
    scavenge_store Fixture.scenario "0x2000" 6
      (Fixture.holding Fixture.four_blocks) in
  calls <> [] /\
  unloadable st' = false /\
  unloadable
    (run_ops [(Fixture.with_try_module_get false Fixture.scenario,
               OpScavengeStore "0x1000" 6);
              (Fixture.scenario, OpProbeStore "0x9000" 6);
              (Fixture.scenario, OpRangesShow);
              (Fixture.scenario, OpHiddenBlocksShow)] st') = false.
Proof.
  pose proof (scavenge_flag_one_way Fixture.scenario
                (Fixture.holding Fixture.four_blocks) "0x2000" 6 0x2000) as H.
  assert (Hc : snd (scavenge_store Fixture.scenario "0x2000" 6
                      (Fixture.holding Fixture.four_blocks)) <> [])
    by (vm_compute; discriminate).
  destruct (scavenge_store Fixture.scenario "0x2000" 6
              (Fixture.holding Fixture.four_blocks)) as [[ret st'] calls].
  cbn [snd] in Hc.
  destruct H as [Hf Hops].
  - reflexivity.
  - unfold is_u64. vm_compute. split; [discriminate | reflexivity].
  - reflexivity.
  - discriminate.
  - reflexivity.
  - right. reflexivity.
  - exact Hc.
  - split; [exact Hc|]. split; [exact Hf|]. apply Hops.
Defined.

(** ** The block counter *)

Lemma hidden_block_add_cnt_inv (e : env) (phys : Z) (st : state) :
  cnt_inv st -> cnt_inv (snd (hidden_block_add e phys st)).
Proof.
  unfold cnt_inv, hidden_block_add, kalloc. intros H.
  destruct (alloc_ok e (n_alloc st)); cbn; [|exact H].
  rewrite H, length_app, Nat2Z.inj_add. cbn [List.length].
  unfold wrap32. now rewrite Zplus_mod_idemp_l.
Qed.

Lemma purge_loop_empties (rounds : nat) :
  forall st, (List.length (hidden_blocks st) <= rounds)%nat ->
    hidden_blocks (purge_loop rounds st) = [] /\
    unloadable (purge_loop rounds st) = unloadable st /\
    ranges (purge_loop rounds st) = ranges st /\
    n_alloc (purge_loop rounds st) = n_alloc st /\
    (cnt_inv st -> hidden_blocks_cnt (purge_loop rounds st) = 0).
Proof.
  induction rounds as [|rounds IH]; intros st Hlen.
  - cbn [purge_loop]. destruct (hidden_blocks st) eqn:Hbl; [|simpl in Hlen; lia].
    repeat split; auto. unfold cnt_inv. now rewrite Hbl.
  - cbn [purge_loop]. destruct (hidden_blocks st) as [|b rest] eqn:Hbl.
    + repeat split; auto. unfold cnt_inv. now rewrite Hbl.
    + destruct (IH (hidden_block_free 0 st)) as (He & Hu & Hr & Hn & Hc).
      { unfold hidden_block_free, list_del. cbn. rewrite Hbl.
        simpl in *. lia. }
      repeat split; auto. intros Hinv. apply Hc.
      unfold cnt_inv in *. unfold hidden_block_free, list_del. cbn.
      rewrite Hbl, Hinv, Hbl. cbn [firstn skipn app List.length].
      rewrite Nat2Z.inj_succ. unfold wrap32.
      rewrite Zminus_mod_idemp_l. f_equal. lia.
Qed.

(** [hidden_blocks_purge] leaves the list empty, touches neither the range
    map nor the flag, and brings a counter that agreed with the list back
    to zero. *)
Lemma hidden_blocks_purge_spec (st : state) :
  hidden_blocks (hidden_blocks_purge st) = [] /\
  unloadable (hidden_blocks_purge st) = unloadable st /\
  ranges (hidden_blocks_purge st) = ranges st /\
  n_alloc (hidden_blocks_purge st) = n_alloc st /\
  (cnt_inv st -> hidden_blocks_cnt (hidden_blocks_purge st) = 0).
Proof. unfold hidden_blocks_purge. now apply purge_loop_empties. Qed.

Lemma hidden_blocks_purge_cnt_inv (st : state) :
  cnt_inv st -> cnt_inv (hidden_blocks_purge st).
Proof.
  intros H. destruct (hidden_blocks_purge_spec st) as (He & _ & _ & _ & Hc).
  unfold cnt_inv. rewrite He, (Hc H). reflexivity.
Qed.

(** C10 fails in [scavenge_store]: it unlinks with [list_del] where the
    other paths go through [hidden_block_free], so the counter keeps its
    old value. One block on the list, counted; after a request for one
    block the list is empty and the counter still says one. *)
Theorem scavenge_leaves_counter_stale :
  let st := Fixture.holding [0x4000] in
  let '(ret, st', calls) := scavenge_store Fixture.scenario "0x1000" 6 st in
  cnt_inv st /\
  ret = 6 /\ map fst calls = [0x4000] /\
  hidden_blocks st' = [] /\
  hidden_blocks_cnt st' = 1 /\
  ~ cnt_inv st'.
Proof. vm_compute. repeat split; discriminate. Qed.

(** ** The range map builders *)

Section Builder.

Variable e : env.

Lemma allocs_succeeded_refl (st : state) : allocs_succeeded e st st.
Proof. intros k Hk. lia. Qed.

Lemma allocs_succeeded_trans (a b c : state) :
  (n_alloc a <= n_alloc b)%nat ->
  allocs_succeeded e a b -> allocs_succeeded e b c ->
  allocs_succeeded e a c.
Proof.
  intros Hab H1 H2 k Hk.
  destruct (Nat.lt_ge_cases k (n_alloc b)); [apply H1 | apply H2]; lia.
Qed.

Lemma alloc_failed_not_succeeded (st st' : state) :
  alloc_failed e st st' -> allocs_succeeded e st st' -> False.
Proof. intros (k & Hk & Hf) Hs. rewrite (Hs k Hk) in Hf. discriminate. Qed.

(** One call of [ram_map_add]: a new last range on success, nothing but
    the allocator call on failure. *)
Lemma ram_map_add_spec (base size : Z) (st : state) :
  n_alloc (snd (ram_map_add e base size st)) = S (n_alloc st) /\
  hidden_blocks (snd (ram_map_add e base size st)) = hidden_blocks st /\
  hidden_blocks_cnt (snd (ram_map_add e base size st)) = hidden_blocks_cnt st /\
  unloadable (snd (ram_map_add e base size st)) = unloadable st /\
  ((alloc_ok e (n_alloc st) = true /\
    fst (ram_map_add e base size st) = 0 /\
    ranges (snd (ram_map_add e base size st)) =
      ranges st ++ [entry_range (base, size)]) \/
   (alloc_ok e (n_alloc st) = false /\
    fst (ram_map_add e base size st) = - ENOMEM /\
    ranges (snd (ram_map_add e base size st)) = ranges st)).
Proof.
  unfold ram_map_add, kalloc.
  destruct (alloc_ok e (n_alloc st)); cbn; repeat split; auto.
Qed.

(** The loop over the entries of a provider: either every allocation
    succeeds and the ranges of all entries are appended in order, or one
    fails and the map is left empty. *)
Lemma add_entries_spec (entries : list (Z * Z)) :
  forall st,
    (n_alloc st <= n_alloc (snd (add_entries e entries st)))%nat /\
    hidden_blocks (snd (add_entries e entries st)) = hidden_blocks st /\
    hidden_blocks_cnt (snd (add_entries e entries st)) = hidden_blocks_cnt st /\
    unloadable (snd (add_entries e entries st)) = unloadable st /\
    ((fst (add_entries e entries st) = 0 /\
      allocs_succeeded e st (snd (add_entries e entries st)) /\
      ranges (snd (add_entries e entries st)) =
        ranges st ++ map entry_range entries) \/
     (fst (add_entries e entries st) = - ENOMEM /\
      alloc_failed e st (snd (add_entries e entries st)) /\
      ranges (snd (add_entries e entries st)) = [])).
Proof.
  induction entries as [|[base size] rest IH]; intros st.
  - cbn. repeat split; auto. left. repeat split.
    + apply allocs_succeeded_refl.
    + now rewrite app_nil_r.
  - cbn [add_entries].
    destruct (ram_map_add_spec base size st) as (Hn & Hh & Hc & Hu & Hcase).
    destruct (ram_map_add e base size st) as [rc st1]. cbn [fst snd] in *.
    destruct Hcase as [(Hok & -> & Hr) | (Hko & -> & Hr)].
    + cbn [Z.eqb negb].
      destruct (IH st1) as (Hn' & Hh' & Hc' & Hu' & Hcase').
      repeat split; try congruence; [lia|].
      destruct Hcase' as [(H0 & Hs & Hr') | (He & (k & Hk & Hf) & Hr')].
      * left. repeat split; auto.
        -- apply (allocs_succeeded_trans st st1); [lia | | exact Hs].
           intros k Hk. replace k with (n_alloc st) by lia. exact Hok.
        -- rewrite Hr', Hr, <- app_assoc. reflexivity.
      * right. repeat split; auto. exists k. split; [lia | exact Hf].
    + cbn. repeat split; try congruence; [lia|].
      right. repeat split; auto. exists (n_alloc st).
      split; [unfold ram_map_free; simpl; lia | exact Hko].
Qed.

Lemma add_entries_app (l1 l2 : list (Z * Z)) :
  forall st,
    add_entries e (l1 ++ l2) st =
      (let (rc, st1) := add_entries e l1 st in
       if negb (rc =? 0) then (rc, st1) else add_entries e l2 st1).
Proof.
  induction l1 as [|[base size] l1 IH]; intros st; [reflexivity|].
  cbn [app add_entries].
  destruct (ram_map_add e base size st) as [rc st1].
  destruct (negb (rc =? 0)) eqn:Hrc; [now rewrite Hrc | apply IH].
Qed.

(** The indexed loop over one node adds the entries from its index on. *)
Lemma fdt_reg_loop_entries (rounds : nat) (np : device_node) :
  forall i st,
    (List.length np - i < rounds)%nat ->
    fdt_reg_loop e rounds np i st = add_entries e (skipn i np) st.
Proof.
  induction rounds as [|rounds IH]; intros i st Hr; [lia|].
  cbn [fdt_reg_loop]. unfold of_property_read_reg, of_get_address.
  destruct (nth_error np i) as [[addr size]|] eqn:Hnth.
  - assert (Hskip : skipn i np = (addr, size) :: skipn (S i) np).
    { rewrite <- (firstn_skipn i np) in Hnth at 1.
      assert (Hi : (i < List.length np)%nat)
        by (apply nth_error_Some; rewrite <- (firstn_skipn i np) at 1;
            congruence).
      rewrite nth_error_app2 in Hnth by (rewrite length_firstn; lia).
      rewrite length_firstn, Nat.min_l, Nat.sub_diag in Hnth by lia.
      destruct (skipn i np) as [|x l] eqn:Hs; [discriminate|].
      cbn in Hnth. inversion Hnth; subst x. f_equal.
      replace (S i) with (1 + i)%nat by lia.
      rewrite <- skipn_skipn, Hs. reflexivity. }
    rewrite Hskip. cbn [add_entries].
    assert (Hi : (i < List.length np)%nat)
      by (apply nth_error_Some; congruence).
    destruct (ram_map_add e addr size st) as [rc st1].
    destruct (negb (rc =? 0)); [reflexivity|]. apply IH. lia.
  - apply nth_error_None in Hnth. now rewrite skipn_all2.
Qed.

(** The device-tree walk is the entry loop on all [reg] pairs. *)
Lemma fdt_node_loop_entries (nodes : list device_node) :
  forall st, fdt_node_loop e nodes st = add_entries e (List.concat nodes) st.
Proof.
  induction nodes as [|np rest IH]; intros st; [reflexivity|].
  cbn [fdt_node_loop List.concat]. rewrite add_entries_app.
  rewrite fdt_reg_loop_entries by lia. cbn [skipn].
  destruct (add_entries e np st) as [rc st1].
  destruct (negb (rc =? 0)); [reflexivity | apply IH].
Qed.

(** The EFI walk is the entry loop on the conventional descriptors. *)
Lemma efi_loop_entries (mds : list efi_memory_desc) :
  forall st, efi_loop e mds st = add_entries e (conventional_entries mds) st.
Proof.
  unfold conventional_entries.
  induction mds as [|md rest IH]; intros st; [reflexivity|].
  cbn [efi_loop filter].
  destruct (md_type md =? EFI_CONVENTIONAL_MEMORY); cbn [negb map].
  - cbn [add_entries].
    destruct (ram_map_add e (md_phys_addr md) (efi_md_size md) st) as [rc st1].
    destruct (negb (rc =? 0)); [reflexivity | apply IH].
  - apply IH.
Qed.

End Builder.

(** *** Sorting *)

Lemma cmp_range_le (a b : range) :
  cmp_range a b <= 0 <-> r_start a <= r_start b.
Proof.
  unfold cmp_range.
  destruct (Z.ltb_spec (r_start a) (r_start b));
    destruct (Z.gtb_spec (r_start a) (r_start b)); lia.
Qed.

Lemma cmp_range_total (a b : range) :
  cmp_range a b <= 0 \/ cmp_range b a <= 0.
Proof. rewrite !cmp_range_le. lia. Qed.

Lemma cmp_range_trans (a b c : range) :
  cmp_range a b <= 0 -> cmp_range b c <= 0 -> cmp_range a c <= 0.
Proof. rewrite !cmp_range_le. lia. Qed.

Lemma sorted_by_cmp_range (l : list range) :
  StronglySorted (fun a b => cmp_range a b <= 0) l -> sorted_by_start l.
Proof.
  unfold sorted_by_start. induction 1 as [|a l Hs IH Hall]; constructor.
  - exact IH.
  - eapply Forall_impl; [|exact Hall]. intros b. apply cmp_range_le.
Qed.

(** The insertion sort of the fixtures honours the contract of [sort]. *)
Section InsertionSort.

Variable cmp : range -> range -> Z.
Hypothesis cmp_total : forall a b, cmp a b <= 0 \/ cmp b a <= 0.
Hypothesis cmp_trans :
  forall a b c, cmp a b <= 0 -> cmp b c <= 0 -> cmp a c <= 0.

Lemma insert_range_perm (x : range) (l : list range) :
  Permutation (x :: l) (Fixture.insert_range cmp x l).
Proof.
  induction l as [|y l IH]; cbn [Fixture.insert_range]; [reflexivity|].
  destruct (cmp x y <=? 0); [reflexivity|].
  rewrite perm_swap. now constructor.
Qed.

Lemma insert_range_sorted (x : range) (l : list range) :
  StronglySorted (fun a b => cmp a b <= 0) l ->
  StronglySorted (fun a b => cmp a b <= 0) (Fixture.insert_range cmp x l).
Proof.
  induction 1 as [|y l Hs IH Hall]; cbn [Fixture.insert_range].
  - repeat constructor.
  - destruct (Z.leb_spec (cmp x y) 0) as [Hxy|Hyx].
    + constructor; [now constructor|]. constructor; [exact Hxy|].
      eapply Forall_impl; [|exact Hall]. intros b Hb. now apply (cmp_trans x y b).
    + constructor; [exact IH|].
      apply (Permutation_Forall (insert_range_perm x l)).
      constructor; [|exact Hall]. destruct (cmp_total x y); [lia | assumption].
Qed.

Lemma insertion_sort_spec (l : list range) :
  Permutation l (Fixture.insertion_sort l cmp) /\
  StronglySorted (fun a b => cmp a b <= 0) (Fixture.insertion_sort l cmp).
Proof.
  unfold Fixture.insertion_sort. induction l as [|x l [IHp IHs]]; cbn [fold_right].
  - split; constructor.
  - split.
    + rewrite <- insert_range_perm. now constructor.
    + now apply insert_range_sorted.
Qed.

End InsertionSort.

Lemma scenario_sort_contract : sort_contract Fixture.scenario.
Proof. intros cmp l Htot Htrans. now apply insertion_sort_spec. Qed.

(** *** What a successful build leaves *)

Lemma sorted_entries_built (e : env) (entries : list (Z * Z)) :
  sort_contract e ->
  built_from entries (sort e (map entry_range entries) cmp_range).
Proof.
  intros Hsort.
  destruct (Hsort cmp_range (map entry_range entries)
              cmp_range_total cmp_range_trans) as [Hperm Hsorted].
  repeat split.
  - now apply sorted_by_cmp_range.
  - exact Hperm.
  - rewrite <- (Permutation_length Hperm). apply length_map.
Qed.

(** A build on an empty map returns 0 exactly when no allocation failed,
    and then the map is the sorted image of the entries. *)
Lemma ram_map_from_efi_result (e : env) (st st' : state) (rc : Z) :
  ranges st = [] ->
  ram_map_from_efi e st = (rc, st') ->
  rc = 0 ->
  ranges st' = sort e (map entry_range (efi_entries e)) cmp_range.
Proof.
  intros Hempty Hrun Hrc. unfold ram_map_from_efi in Hrun.
  destruct (efi_memmap_enabled e); cbn [negb] in Hrun;
    [|inversion Hrun; subst; discriminate].
  rewrite efi_loop_entries in Hrun.
  destruct (add_entries_spec e (conventional_entries (efi_memmap e)) st)
    as (_ & _ & _ & _ & Hcase).
  destruct (add_entries e (conventional_entries (efi_memmap e)) st)
    as [rc1 st1]. cbn [fst snd] in Hcase.
  destruct Hcase as [(-> & _ & Hr) | (-> & _ & _)].
  - cbn [Z.eqb negb] in Hrun. inversion Hrun; subst. cbn.
    rewrite Hr, Hempty. reflexivity.
  - cbn in Hrun. inversion Hrun; subst. discriminate.
Qed.

Lemma ram_map_from_fdt_result (e : env) (st st' : state) (rc : Z) :
  ranges st = [] ->
  ram_map_from_fdt e st = (rc, st') ->
  rc = 0 ->
  ranges st' = sort e (map entry_range (fdt_entries e)) cmp_range.
Proof.
  intros Hempty Hrun Hrc. unfold ram_map_from_fdt in Hrun.
  rewrite fdt_node_loop_entries in Hrun.
  destruct (add_entries_spec e (List.concat (of_memory_nodes e)) st)
    as (_ & _ & _ & _ & Hcase).
  destruct (add_entries e (List.concat (of_memory_nodes e)) st)
    as [rc1 st1]. cbn [fst snd] in Hcase.
  destruct Hcase as [(-> & _ & Hr) | (-> & _ & _)].
  - cbn [Z.eqb negb] in Hrun. inversion Hrun; subst. cbn.
    rewrite Hr, Hempty. reflexivity.
  - cbn in Hrun. inversion Hrun; subst. discriminate.
Qed.

(** With the memory map enabled and the allocator never failing, the EFI
    build succeeds. *)
Lemma ram_map_from_efi_succeeds (e : env) (st : state) :
  efi_memmap_enabled e = true ->
  (forall k, alloc_ok e k = true) ->
  fst (ram_map_from_efi e st) = 0.
Proof.
  intros Hen Hok. unfold ram_map_from_efi. rewrite Hen. cbn [negb].
  rewrite efi_loop_entries.
  destruct (add_entries_spec e (conventional_entries (efi_memmap e)) st)
    as (_ & _ & _ & _ & Hcase).
  destruct (add_entries e (conventional_entries (efi_memmap e)) st)
    as [rc1 st1]. cbn [fst snd] in Hcase.
  destruct Hcase as [(-> & _ & _) | (_ & (k & _ & Hf) & _)]; [reflexivity|].
  rewrite Hok in Hf. discriminate.
Qed.

Lemma ram_map_from_fdt_succeeds (e : env) (st : state) :
  (forall k, alloc_ok e k = true) ->
  fst (ram_map_from_fdt e st) = 0.
Proof.
  intros Hok. unfold ram_map_from_fdt. rewrite fdt_node_loop_entries.
  destruct (add_entries_spec e (List.concat (of_memory_nodes e)) st)
    as (_ & _ & _ & _ & Hcase).
  destruct (add_entries e (List.concat (of_memory_nodes e)) st)
    as [rc1 st1]. cbn [fst snd] in Hcase.
  destruct Hcase as [(-> & _ & _) | (_ & (k & _ & Hf) & _)]; [reflexivity|].
  rewrite Hok in Hf. discriminate.
Qed.

(** C7. Whatever the firmware reports, a build that succeeds (from the EFI
    memory map or from the device tree) leaves a range map sorted
    ascending by start that holds exactly one range per reported entry
    (conventional-memory descriptor, or [reg] pair), each entry
    (base, size) having become the range from [base] to
    [base + size - 1], computed on 64 bits; when the entry does not run
    past the end of the address space that is the interval
    [base, base + size - 1] itself. *)
Theorem range_map_sorted_one_range_per_entry (e : env) (st : state) :
  sort_contract e ->
  ranges st = [] ->
  (forall st', ram_map_from_efi e st = (0, st') ->
     built_from (efi_entries e) (ranges st')) /\
  (forall st', ram_map_from_fdt e st = (0, st') ->
     built_from (fdt_entries e) (ranges st')) /\
  (forall base size,
     0 <= base -> 0 < size -> base + size <= U64_MODULUS ->
     entry_range (base, size) = mk_range base (base + size - 1)).
Proof.
  intros Hsort Hempty. split; [|split].
  - intros st' Hrun.
    rewrite (ram_map_from_efi_result e st st' 0 Hempty Hrun eq_refl).
    now apply sorted_entries_built.
  - intros st' Hrun.
    rewrite (ram_map_from_fdt_result e st st' 0 Hempty Hrun eq_refl).
    now apply sorted_entries_built.
  - intros base size Hb Hs Hfit. unfold entry_range. cbn [fst snd].
    rewrite wrap64_small; [reflexivity|]. unfold is_u64. lia.
Qed.

(** C7, at the scenario: both providers give the two ranges 0x0-0xfff and
    0x4000-0x7fff, in that order. *)
Lemma range_map_sorted_one_range_per_entry_witness :
  ranges (snd (ram_map_from_efi Fixture.scenario initial_state))
    = Fixture.scenario_ranges /\
  built_from (efi_entries Fixture.scenario)
    (ranges (snd (ram_map_from_efi Fixture.scenario initial_state))) /\
  built_from (fdt_entries Fixture.scenario)
    (ranges (snd (ram_map_from_fdt Fixture.scenario initial_state))) /\
  entry_range (0x4000, 0x4000) = mk_range 0x4000 0x7FFF.
Proof.
  destruct (range_map_sorted_one_range_per_entry Fixture.scenario
              initial_state scenario_sort_contract eq_refl)
    as (Hefi & Hfdt & Hentry).
  split; [reflexivity|]. split; [|split].
  - apply Hefi. reflexivity.
  - apply Hfdt. reflexivity.
  - apply (Hentry 0x4000 0x4000); [lia | lia | vm_compute; discriminate].
Defined.

(** ** The hidden block scanner *)

Section Scanner.

Variable e : env.

Lemma hidden_block_add_spec (phys : Z) (st : state) :
  n_alloc (snd (hidden_block_add e phys st)) = S (n_alloc st) /\
  ranges (snd (hidden_block_add e phys st)) = ranges st /\
  unloadable (snd (hidden_block_add e phys st)) = unloadable st /\
  ((alloc_ok e (n_alloc st) = true /\
    fst (hidden_block_add e phys st) = 0 /\
    hidden_blocks (snd (hidden_block_add e phys st)) =
      hidden_blocks st ++ [phys]) \/
   (alloc_ok e (n_alloc st) = false /\
    fst (hidden_block_add e phys st) = - ENOMEM /\
    hidden_blocks (snd (hidden_block_add e phys st)) = hidden_blocks st)).
Proof.
  unfold hidden_block_add, kalloc.
  destruct (alloc_ok e (n_alloc st)); cbn; repeat split; auto.
Qed.

Lemma scan_frame_exit_refl (st : state) : scan_frame e st (LoopExit st).
Proof.
  unfold scan_frame. cbn. repeat split; auto. apply allocs_succeeded_refl.
Qed.

Lemma scan_frame_fuel_refl (st : state) : scan_frame e st (LoopFuel st).
Proof.
  unfold scan_frame. cbn. repeat split; auto. apply allocs_succeeded_refl.
Qed.

(** Framing composes: a stretch that ran on without failure, followed by
    any stretch. *)
Lemma scan_frame_step (st st1 : state) (r : loop_result) :
  (n_alloc st <= n_alloc st1)%nat ->
  ranges st1 = ranges st ->
  unloadable st1 = unloadable st ->
  (cnt_inv st -> cnt_inv st1) ->
  allocs_succeeded e st st1 ->
  scan_frame e st1 r -> scan_frame e st r.
Proof.
  intros Hn Hr Hu Hc Hs (Hn' & Hr' & Hu' & Hc' & Hres).
  unfold scan_frame. repeat split; try congruence; auto; [lia|].
  destruct r as [st2|rc st2|st2]; cbn [loop_state] in *.
  - now apply (allocs_succeeded_trans e st st1).
  - destruct Hres as [Hrc (k & Hk & Hf)]. split; [exact Hrc|].
    exists k. split; [lia | exact Hf].
  - now apply (allocs_succeeded_trans e st st1).
Qed.

Lemma scan_range_frame (fuel : nat) (rend : Z) :
  forall start st, scan_frame e st (fst (scan_range e fuel rend start st)).
Proof.
  induction fuel as [|fuel IH]; intros start st; cbn [scan_range].
  - apply scan_frame_fuel_refl.
  - destruct (wrap64 (start + block_sz e) <? rend);
      [|apply scan_frame_exit_refl].
    destruct (region_disjoint e start (block_sz e)); cbn [negb].
    + destruct (hidden_block_add_spec start st) as (Hn & Hr & Hu & Hcase).
      pose proof (hidden_block_add_cnt_inv e start st) as Hcnt.
      destruct (hidden_block_add e start st) as [rc st1]. cbn [fst snd] in *.
      destruct Hcase as [(Hok & -> & _) | (Hko & -> & _)].
      * cbn [Z.eqb negb]. specialize (IH (wrap64 (start + block_sz e)) st1).
        destruct (scan_range e fuel rend (wrap64 (start + block_sz e)) st1)
          as [r qs]. cbn [fst] in *.
        apply (scan_frame_step st st1); auto; [lia|].
        intros k Hk. replace k with (n_alloc st) by lia. exact Hok.
      * cbn. unfold scan_frame. cbn [loop_state].
        repeat split; auto; [lia|].
        exists (n_alloc st). split; [lia | exact Hko].
    + specialize (IH (wrap64 (start + block_sz e)) st).
      destruct (scan_range e fuel rend (wrap64 (start + block_sz e)) st)
        as [r qs]. exact IH.
Qed.

Lemma scan_ranges_frame (fuel : nat) (rs : list range) :
  forall st, scan_frame e st (fst (scan_ranges e fuel rs st)).
Proof.
  induction rs as [|r rest IH]; intros st; cbn [scan_ranges].
  - apply scan_frame_exit_refl.
  - pose proof (scan_range_frame fuel (r_end r)
                  (ALIGN (r_start r) (block_sz e)) st) as Hin.
    destruct (scan_range e fuel (r_end r) (ALIGN (r_start r) (block_sz e)) st)
      as [[st1|rc st1|st1] qs]; cbn [fst] in *; try exact Hin.
    specialize (IH st1). destruct (scan_ranges e fuel rest st1) as [res qs'].
    cbn [fst] in *. destruct Hin as (Hn & Hr & Hu & Hc & Hs).
    cbn [loop_state] in *. now apply (scan_frame_step st st1).
Qed.

(** [find_hidden_blocks], whatever the fuel: while it runs no allocation
    has failed; when it returns 0 none has, and the counter still agrees
    with the list; when one has failed it has returned [-ENOMEM] with the
    list purged. The range map and the flag are never touched. *)
Lemma find_hidden_blocks_frame (fuel : nat) (st : state) :
  ranges (outcome_state (fst (find_hidden_blocks e fuel st))) = ranges st /\
  unloadable (outcome_state (fst (find_hidden_blocks e fuel st)))
    = unloadable st /\
  (cnt_inv st ->
   cnt_inv (outcome_state (fst (find_hidden_blocks e fuel st)))) /\
  match fst (find_hidden_blocks e fuel st) with
  | Running st' => allocs_succeeded e st st'
  | Returned rc st' =>
      (rc = 0 /\ allocs_succeeded e st st') \/
      (rc = - ENOMEM /\ alloc_failed e st st' /\ hidden_blocks st' = [])
  end.
Proof.
  unfold find_hidden_blocks.
  pose proof (scan_ranges_frame fuel (ranges st) st) as Hf.
  destruct (scan_ranges e fuel (ranges st) st) as [[st1|rc st1|st1] qs];
    cbn [fst outcome_state] in *;
    destruct Hf as (Hn & Hr & Hu & Hc & Hres); cbn [loop_state] in *.
  - repeat split; auto.
  - destruct (hidden_blocks_purge_spec st1) as (He & Hu' & Hr' & Hn' & _).
    destruct Hres as [-> (k & Hk & Hfail)].
    repeat split; try congruence.
    + intros Hinv. apply hidden_blocks_purge_cnt_inv. auto.
    + right. repeat split; auto. exists k. split; [lia | exact Hfail].
  - repeat split; auto.
Qed.

End Scanner.

(** C6. An allocation failure anywhere in a build of the range map, from
    the EFI memory map or from the device tree, makes the build return
    [-ENOMEM] with the range collection empty; an allocation failure
    anywhere in the scan makes [find_hidden_blocks] return [-ENOMEM], at
    once (a scan still running has seen none), with the hidden block list
    empty and the counter back at zero. No partial map or list is left. *)
Theorem alloc_failure_discards_everything
  (e : env) (st : state) (fuel : nat) :
  (alloc_failed e st (snd (ram_map_from_efi e st)) ->
     fst (ram_map_from_efi e st) = - ENOMEM /\
     ranges (snd (ram_map_from_efi e st)) = []) /\
  (alloc_failed e st (snd (ram_map_from_fdt e st)) ->
     fst (ram_map_from_fdt e st) = - ENOMEM /\
     ranges (snd (ram_map_from_fdt e st)) = []) /\
  (alloc_failed e st (outcome_state (fst (find_hidden_blocks e fuel st))) ->
     exists st',
       fst (find_hidden_blocks e fuel st) = Returned (- ENOMEM) st' /\
       hidden_blocks st' = [] /\
       (cnt_inv st -> hidden_blocks_cnt st' = 0)).
Proof.
  split; [|split].
  - unfold ram_map_from_efi.
    destruct (efi_memmap_enabled e); cbn [negb fst snd].
    + rewrite efi_loop_entries.
      destruct (add_entries_spec e (conventional_entries (efi_memmap e)) st)
        as (_ & _ & _ & _ & Hcase).
      destruct (add_entries e (conventional_entries (efi_memmap e)) st)
        as [rc st1]. cbn [fst snd] in Hcase.
      destruct Hcase as [(-> & Hs & _) | (-> & _ & Hr)]; cbn.
      * intros Hf. exfalso. apply (alloc_failed_not_succeeded e st st1); auto.
      * auto.
    + intros (k & Hk & _). lia.
  - unfold ram_map_from_fdt. rewrite fdt_node_loop_entries.
    destruct (add_entries_spec e (List.concat (of_memory_nodes e)) st)
      as (_ & _ & _ & _ & Hcase).
    destruct (add_entries e (List.concat (of_memory_nodes e)) st)
      as [rc st1]. cbn [fst snd] in Hcase.
    destruct Hcase as [(-> & Hs & _) | (-> & _ & Hr)]; cbn.
    + intros Hf. exfalso. apply (alloc_failed_not_succeeded e st st1); auto.
    + auto.
  - destruct (find_hidden_blocks_frame e fuel st) as (_ & _ & Hcnt & Hres).
    destruct (fst (find_hidden_blocks e fuel st)) as [rc st'|st'];
      cbn [outcome_state] in *; intros Hf.
    + destruct Hres as [(_ & Hs) | (-> & _ & Hempty)].
      * exfalso. now apply (alloc_failed_not_succeeded e st st').
      * exists st'. repeat split; auto. intros Hinv.
        specialize (Hcnt Hinv). unfold cnt_inv in Hcnt.
        now rewrite Hempty in Hcnt.
    + exfalso. now apply (alloc_failed_not_succeeded e st st').
Qed.

(** C6, at the scenario with the second allocation failing: the build has
    added one range and the scan one block when the failure comes; each
    returns [-ENOMEM] and leaves nothing. *)
Lemma alloc_failure_discards_everything_witness :
  (fst (ram_map_from_efi Fixture.second_alloc_fails initial_state) = - ENOMEM /\
   ranges (snd (ram_map_from_efi Fixture.second_alloc_fails initial_state))
     = []) /\
  (fst (ram_map_from_fdt Fixture.second_alloc_fails initial_state) = - ENOMEM /\
   ranges (snd (ram_map_from_fdt Fixture.second_alloc_fails initial_state))
     = []) /\
  (exists st',
     fst (find_hidden_blocks Fixture.second_alloc_fails 8 Fixture.mapped)
       = Returned (- ENOMEM) st' /\
     hidden_blocks st' = [] /\
     (cnt_inv Fixture.mapped -> hidden_blocks_cnt st' = 0)).
Proof.
  destruct (alloc_failure_discards_everything Fixture.second_alloc_fails
              initial_state 8) as (Hefi & Hfdt & _).
  destruct (alloc_failure_discards_everything Fixture.second_alloc_fails
              Fixture.mapped 8) as (_ & _ & Hscan).
  split; [|split].
  - apply Hefi. exists 1%nat. vm_compute. repeat split; lia.
  - apply Hfdt. exists 1%nat. vm_compute. repeat split; lia.
  - apply Hscan. exists 1%nat. vm_compute. repeat split; lia.
Defined.

(** *** Alignment and the loop bound *)

(** On a power of two, and short of the end of the address space, [ALIGN]
    rounds up to the next multiple. *)
Lemma ALIGN_pow2 (x k : Z) :
  0 <= k < 64 -> 0 <= x -> x + 2 ^ k <= U64_MODULUS ->
  ALIGN x (2 ^ k) = round_up x (2 ^ k).
Proof.
  intros Hk Hx Hfit. unfold ALIGN, ALIGN_MASK, not64, round_up.
  assert (Hpow : 0 < 2 ^ k) by (apply Z.pow_pos_nonneg; lia).
  assert (Hle : 2 ^ k <= 2 ^ 63) by (apply Z.pow_le_mono_r; lia).
  assert (Hmask : wrap64 (2 ^ k - 1) = 2 ^ k - 1).
  { apply wrap64_small. unfold is_u64, U64_MODULUS in *. lia. }
  rewrite Hmask.
  assert (Hsum : wrap64 (x + (2 ^ k - 1)) = x + 2 ^ k - 1).
  { rewrite wrap64_small; [lia|]. unfold is_u64. lia. }
  rewrite Hsum.
  assert (Hnot : wrap64 (Z.lnot (2 ^ k - 1))
                 = Z.land (Z.lnot (2 ^ k - 1)) (Z.ones 64)).
  { unfold wrap64, U64_MODULUS. now rewrite Z.land_ones by lia. }
  rewrite Hnot, (Z.land_comm (Z.lnot _)), Z.land_assoc.
  rewrite (Z.land_ones _ 64) by lia.
  change (2 ^ 64) with U64_MODULUS.
  rewrite (Z.mod_small (x + 2 ^ k - 1)) by lia.
  rewrite <- Z.ldiff_land.
  replace (2 ^ k - 1) with (Z.ones k) by (rewrite Z.ones_equiv; lia).
  rewrite Z.ldiff_ones_r, Z.shiftl_mul_pow2, Z.shiftr_div_pow2 by lia.
  reflexivity.
Qed.

(** Stepping a multiple of the block size by one block, on 64 bits, gives
    a multiple again, at most the last block of the address space. *)
Lemma block_step_wraps (bs start : Z) :
  0 < bs -> (bs | U64_MODULUS) -> (bs | start) ->
  (bs | wrap64 (start + bs)) /\
  0 <= wrap64 (start + bs) <= U64_MODULUS - bs.
Proof.
  intros Hbs Hdiv Hstart.
  assert (Hd : (bs | wrap64 (start + bs))).
  { apply Z.mod_divide; [lia|]. unfold wrap64.
    rewrite Z.mod_mod_divide by exact Hdiv.
    apply Z.mod_divide; [lia|]. apply Z.divide_add_r; [exact Hstart|].
    apply Z.divide_refl. }
  split; [exact Hd|].
  destruct (wrap64_range (start + bs)) as [Hlo Hhi].
  destruct Hd as [q Hq]. destruct Hdiv as [p Hp].
  assert (Hqp : q < p) by nia.
  assert (Hq0 : 0 <= q) by nia.
  rewrite Hq, Hp. nia.
Qed.

Section ScanArithmetic.

Variable e : env.
Hypothesis block_sz_pos : 0 < block_sz e.

(** Where the scan is sound: on a range that ends at least one block
    short of the end of the address space, started where one more block
    does not reach that end, the loop asks only about blocks that lie
    inside the range, at whole block steps from the start. *)
Lemma scan_range_queries_inside (fuel : nat) (rend : Z) :
  rend + block_sz e <= U64_MODULUS ->
  forall start st,
    0 <= start -> start + block_sz e < U64_MODULUS ->
    Forall (fun q => start <= q /\ q + block_sz e < rend /\
                     (block_sz e | q - start))
      (snd (scan_range e fuel rend start st)).
Proof.
  intros Hend. induction fuel as [|fuel IH]; intros start st H0 Hfit;
    cbn [scan_range]; [constructor|].
  rewrite wrap64_small by (unfold is_u64; lia).
  destruct (Z.ltb_spec (start + block_sz e) rend) as [Hlt|Hge];
    [|constructor].
  assert (Hhere : start <= start /\ start + block_sz e < rend /\
                  (block_sz e | start - start)).
  { repeat split; try lia. rewrite Z.sub_diag. apply Z.divide_0_r. }
  assert (Hrest : forall st1,
             Forall (fun q => start <= q /\ q + block_sz e < rend /\
                              (block_sz e | q - start))
               (snd (scan_range e fuel rend (start + block_sz e) st1))).
  { intros st1. eapply Forall_impl; [|apply IH; lia].
    intros q (Hq1 & Hq2 & Hq3). repeat split; try lia.
    replace (q - start) with ((q - (start + block_sz e)) + block_sz e) by lia.
    apply Z.divide_add_r; [exact Hq3 | apply Z.divide_refl]. }
  destruct (region_disjoint e start (block_sz e)); cbn [negb].
  - destruct (hidden_block_add e start st) as [rc st1].
    destruct (negb (rc =? 0)); cbn [snd].
    + constructor; [exact Hhere | constructor].
    + specialize (Hrest st1).
      destruct (scan_range e fuel rend (start + block_sz e) st1) as [r qs].
      constructor; [exact Hhere | exact Hrest].
  - specialize (Hrest st).
    destruct (scan_range e fuel rend (start + block_sz e) st) as [r qs].
    constructor; [exact Hhere | exact Hrest].
Qed.

(** There, the loop also comes to an end: fuel beyond the width of the
    range is never used up. *)
Lemma scan_range_terminates (fuel : nat) (rend : Z) :
  rend + block_sz e <= U64_MODULUS ->
  forall start st,
    0 <= start -> start + block_sz e < U64_MODULUS ->
    (Z.to_nat (rend - start) < fuel)%nat ->
    forall st', fst (scan_range e fuel rend start st) <> LoopFuel st'.
Proof.
  intros Hend. induction fuel as [|fuel IH];
    intros start st H0 Hfit Hfuel st'; [lia|].
  cbn [scan_range]. rewrite wrap64_small by (unfold is_u64; lia).
  destruct (Z.ltb_spec (start + block_sz e) rend) as [Hlt|Hge];
    [|discriminate].
  assert (Hrest : forall st1,
             fst (scan_range e fuel rend (start + block_sz e) st1)
             <> LoopFuel st').
  { intros st1. apply IH; lia. }
  destruct (region_disjoint e start (block_sz e)); cbn [negb].
  - destruct (hidden_block_add e start st) as [rc st1].
    destruct (negb (rc =? 0)); [discriminate|].
    specialize (Hrest st1).
    now destruct (scan_range e fuel rend (start + block_sz e) st1).
  - specialize (Hrest st).
    now destruct (scan_range e fuel rend (start + block_sz e) st).
Qed.

(** Where it is not: on a range that ends inside the last block of the
    address space the bound test never fails, because the sum wraps. *)
Lemma scan_range_condition_at_top (rend start : Z) :
  (block_sz e | U64_MODULUS) -> (block_sz e | start) ->
  U64_MODULUS - block_sz e < rend ->
  (wrap64 (start + block_sz e) <? rend) = true.
Proof.
  intros Hdiv Hstart Hend.
  destruct (block_step_wraps (block_sz e) start block_sz_pos Hdiv Hstart)
    as [_ Hle].
  apply Z.ltb_lt. lia.
Qed.

(** So there the loop can only leave through a failed allocation. *)
Lemma scan_range_never_exits_at_top (fuel : nat) (rend : Z) :
  (block_sz e | U64_MODULUS) ->
  U64_MODULUS - block_sz e < rend ->
  forall start st st',
    (block_sz e | start) ->
    fst (scan_range e fuel rend start st) <> LoopExit st'.
Proof.
  intros Hdiv Hend. induction fuel as [|fuel IH]; intros start st st' Hstart;
    cbn [scan_range]; [discriminate|].
  rewrite (scan_range_condition_at_top rend start Hdiv Hstart Hend).
  destruct (block_step_wraps (block_sz e) start block_sz_pos Hdiv Hstart)
    as [Hnext _].
  destruct (region_disjoint e start (block_sz e)); cbn [negb].
  - destruct (hidden_block_add e start st) as [rc st1].
    destruct (negb (rc =? 0)); [discriminate|].
    specialize (IH (wrap64 (start + block_sz e)) st1 st' Hnext).
    now destruct (scan_range e fuel rend (wrap64 (start + block_sz e)) st1).
  - specialize (IH (wrap64 (start + block_sz e)) st st' Hnext).
    now destruct (scan_range e fuel rend (wrap64 (start + block_sz e)) st).
Qed.

(** With every address tracked there is no allocation, and the loop runs
    for as long as it is given fuel, the globals unchanged. *)
Lemma scan_range_runs_forever_at_top (fuel : nat) (rend : Z) :
  (block_sz e | U64_MODULUS) ->
  U64_MODULUS - block_sz e < rend ->
  (forall a len, region_disjoint e a len = false) ->
  forall start st,
    (block_sz e | start) ->
    fst (scan_range e fuel rend start st) = LoopFuel st /\
    List.length (snd (scan_range e fuel rend start st)) = fuel.
Proof.
  intros Hdiv Hend Htracked. induction fuel as [|fuel IH]; intros start st Hstart;
    cbn [scan_range]; [split; reflexivity|].
  rewrite (scan_range_condition_at_top rend start Hdiv Hstart Hend).
  rewrite Htracked. cbn [negb].
  destruct (block_step_wraps (block_sz e) start block_sz_pos Hdiv Hstart)
    as [Hnext _].
  specialize (IH (wrap64 (start + block_sz e)) st Hnext).
  destruct (scan_range e fuel rend (wrap64 (start + block_sz e)) st) as [r qs].
  cbn [fst snd List.length] in *. destruct IH as [-> ->]. split; reflexivity.
Qed.

End ScanArithmetic.

Lemma round_up_bounds (x a : Z) :
  0 < a -> x <= round_up x a < x + a.
Proof.
  intros Ha. unfold round_up.
  pose proof (Z.div_mod (x + a - 1) a ltac:(lia)) as Hdm.
  pose proof (Z.mod_pos_bound (x + a - 1) a Ha) as Hmod. nia.
Qed.

(** On a range map of safe ranges and with a power-of-two block size, the
    whole scan comes to an end, given fuel beyond the highest range end,
    and every block it asks about lies inside one of the ranges. *)
Lemma scan_ranges_safe (e : env) (k : Z) (fuel : nat) (rs : list range) :
  0 <= k < 64 -> block_sz e = 2 ^ k ->
  Forall (safe_range e) rs ->
  Forall (fun r => (Z.to_nat (r_end r) < fuel)%nat) rs ->
  forall st,
    (forall st', fst (scan_ranges e fuel rs st) <> LoopFuel st') /\
    Forall (fun q => exists r, In r rs /\
                       r_start r <= q /\ q + block_sz e - 1 <= r_end r)
      (snd (scan_ranges e fuel rs st)).
Proof.
  intros Hk Hbs Hsafe Hfuel.
  assert (Hpos : 0 < block_sz e)
    by (rewrite Hbs; apply Z.pow_pos_nonneg; lia).
  induction rs as [|r rest IH]; intros st; cbn [scan_ranges].
  - split; [discriminate | constructor].
  - inversion Hsafe as [|? ? (Hs0 & Hend & Hstart) Hsafe']; subst.
    inversion Hfuel as [|? ? Hf Hfuel']; subst.
    assert (Halign : ALIGN (r_start r) (block_sz e)
                     = round_up (r_start r) (block_sz e)).
    { rewrite Hbs. apply ALIGN_pow2; [exact Hk | exact Hs0 | lia]. }
    rewrite Halign.
    pose proof (round_up_bounds (r_start r) (block_sz e) Hpos) as Hru.
    pose proof (scan_range_queries_inside e Hpos fuel (r_end r) Hend
                  (round_up (r_start r) (block_sz e)) st
                  ltac:(lia) ltac:(lia)) as Hq.
    pose proof (scan_range_terminates e Hpos fuel (r_end r) Hend
                  (round_up (r_start r) (block_sz e)) st
                  ltac:(lia) ltac:(lia) ltac:(lia)) as Ht.
    assert (Hq' : Forall (fun q => exists r0, In r0 (r :: rest) /\
                            r_start r0 <= q /\
                            q + block_sz e - 1 <= r_end r0)
                    (snd (scan_range e fuel (r_end r)
                            (round_up (r_start r) (block_sz e)) st))).
    { eapply Forall_impl; [|exact Hq]. intros q (H1 & H2 & _).
      exists r. split; [now left | lia]. }
    destruct (scan_range e fuel (r_end r)
                (round_up (r_start r) (block_sz e)) st)
      as [[st1|rc st1|st1] qs]; cbn [fst snd] in *.
    + destruct (IH Hsafe' Hfuel' st1) as [Hnf Hin].
      destruct (scan_ranges e fuel rest st1) as [res qs'].
      cbn [fst snd] in *. split; [exact Hnf|].
      apply Forall_app. split; [exact Hq'|].
      eapply Forall_impl; [|exact Hin]. intros q (r0 & Hr0 & Hb).
      exists r0. split; [now right | exact Hb].
    + split; [discriminate | exact Hq'].
    + exfalso. now apply (Ht st1).
Qed.

(** C1 fails on the scenario of the specification. The loop of
    [find_hidden_blocks] goes on while [start + block_sz < ranges[i].end],
    [end] being the last address of the range, so the block that ends
    exactly with the range is never examined: with the range map
    [(0x0, 0xfff); (0x4000, 0x7fff)], blocks of 0x1000 bytes and only
    0x0-0xfff tracked, the scan returns 0 having asked about, and added,
    0x4000, 0x5000 and 0x6000, for any fuel from 4 on. Stepping while
    [addr + block_size <= range.end + 1], as C1 words it, gives 0x7000 as
    well. *)
Theorem scan_misses_last_block_of_range :
  forall extra : nat,
    find_hidden_blocks Fixture.scenario (4 + extra) Fixture.mapped =
      (Returned 0
         {| unloadable := true;
            hidden_blocks := [0x4000; 0x5000; 0x6000];
            hidden_blocks_cnt := 3;
            ranges := Fixture.scenario_ranges;
            n_alloc := 3 |},
       [0x4000; 0x5000; 0x6000]) /\
    spec_scan Fixture.scenario Fixture.scenario_ranges
      = [0x4000; 0x5000; 0x6000; 0x7000].
Proof. intros extra. split; vm_compute; reflexivity. Qed.

(** C9 fails for RAM at the top of the address space. For the range
    0xffffffffffffe000-0xffffffffffffffff and blocks of 0x1000 bytes the
    sum [start + block_sz] wraps to 0 at the last block, the bound test
    keeps succeeding, and the scan goes round the address space: with
    every address tracked it is still running after any number of rounds,
    and its third question is about address 0, which is not in the
    range. *)
Theorem scan_wraps_at_top_of_address_space :
  (forall fuel,
     fst (find_hidden_blocks Fixture.all_tracked fuel Fixture.top_mapped)
       = Running Fixture.top_mapped /\
     List.length
       (snd (find_hidden_blocks Fixture.all_tracked fuel Fixture.top_mapped))
       = fuel) /\
  snd (find_hidden_blocks Fixture.all_tracked 3 Fixture.top_mapped)
    = [0xFFFFFFFFFFFFE000; 0xFFFFFFFFFFFFF000; 0] /\
  ~ (r_start Fixture.top_range <= 0 <= r_end Fixture.top_range).
Proof.
  split; [|split].
  - intros fuel. unfold find_hidden_blocks.
    change (ranges Fixture.top_mapped) with [Fixture.top_range].
    cbn [scan_ranges].
    change (ALIGN (r_start Fixture.top_range) (block_sz Fixture.all_tracked))
      with 0xFFFFFFFFFFFFE000.
    destruct (scan_range_runs_forever_at_top Fixture.all_tracked eq_refl fuel
                (r_end Fixture.top_range))
      with (start := 0xFFFFFFFFFFFFE000) (st := Fixture.top_mapped)
      as [Hres Hlen].
    + exists (2 ^ 52). reflexivity.
    + reflexivity.
    + reflexivity.
    + exists 0xFFFFFFFFFFFFE. reflexivity.
    + destruct (scan_range Fixture.all_tracked fuel (r_end Fixture.top_range)
                  0xFFFFFFFFFFFFE000 Fixture.top_mapped) as [r qs].
      cbn [fst snd] in *. subst r. split; [reflexivity | exact Hlen].
  - vm_compute. reflexivity.
  - vm_compute. intros [H _]. apply H. reflexivity.
Qed.

(** ** The report formatter *)

Lemma string_length_app (s1 s2 : string) :
  String.length (s1 ++ s2) = (String.length s1 + String.length s2)%nat.
Proof. induction s1 as [|c s1 IH]; simpl; [reflexivity | now rewrite IH]. Qed.

Lemma substring_all (s : string) : substring 0 (String.length s) s = s.
Proof. induction s as [|c s IH]; simpl; [reflexivity | now rewrite IH]. Qed.

Lemma string_app_nil_r (s : string) : (s ++ EmptyString)%string = s.
Proof. induction s as [|c s IH]; simpl; [reflexivity | now rewrite IH]. Qed.

Lemma string_app_assoc (s1 s2 s3 : string) :
  ((s1 ++ s2) ++ s3)%string = (s1 ++ (s2 ++ s3))%string.
Proof. induction s1 as [|c s1 IH]; simpl; [reflexivity | now rewrite IH]. Qed.

(** *** Runs *)

Section Runs.

Variable bs : Z.

(** The first run starts with the first block. *)
Lemma runs_head (b : Z) (rest : list Z) :
  exists run more, runs bs (b :: rest) = (b :: run) :: more.
Proof.
  cbn [runs]. destruct (runs bs rest) as [|[|c run] more]; eauto.
  destruct (c =? wrap64 (b + bs)); eauto.
Qed.

(** A contiguous stretch followed by a block that does not continue it,
    or by nothing, is a run of its own. *)
Lemma runs_app_contiguous (run : list Z) :
  forall bl,
    run <> [] -> contiguous bs run ->
    match bl with
    | [] => True
    | b :: _ => b <> wrap64 (last run 0 + bs)
    end ->
    runs bs (run ++ bl) = run :: runs bs bl.
Proof.
  induction run as [|a [|a2 tl] IH]; intros bl Hne Hc Hbreak.
  - contradiction.
  - cbn [app last] in *. destruct bl as [|b rest]; [reflexivity|].
    destruct (runs_head b rest) as (r & more & Hr).
    cbn [runs] in *. rewrite Hr.
    destruct (Z.eqb_spec b (wrap64 (a + bs))); [contradiction | reflexivity].
  - destruct Hc as [Ha2 Hc].
    assert (Hrec : runs bs ((a2 :: tl) ++ bl) = (a2 :: tl) :: runs bs bl).
    { apply IH; [discriminate | exact Hc | exact Hbreak]. }
    change ((a :: a2 :: tl) ++ bl) with (a :: ((a2 :: tl) ++ bl)).
    cbn [runs]. cbn [runs] in Hrec. rewrite Hrec.
    destruct (Z.eqb_spec a2 (wrap64 (a + bs))); [reflexivity | contradiction].
Qed.

(** The block after the last of a run is one run size past its first. *)
Lemma contiguous_last (run : list Z) :
  forall a, contiguous bs (a :: run) ->
    wrap64 (last (a :: run) 0 + bs) = wrap64 (a + run_size bs (a :: run)).
Proof.
  unfold run_size. induction run as [|b tl IH]; intros a Hc.
  - cbn [last List.length]. f_equal. lia.
  - destruct Hc as [Hb Hc]. specialize (IH b Hc).
    change (last (a :: b :: tl) 0) with (last (b :: tl) 0). rewrite IH.
    change (List.length (a :: b :: tl)) with (S (List.length (b :: tl))).
    rewrite Nat2Z.inj_succ. rewrite Hb at 1.
    rewrite wrap64_add_l. f_equal. lia.
Qed.

Lemma contiguous_snoc (run : list Z) :
  forall a b, contiguous bs (a :: run) ->
    b = wrap64 (last (a :: run) 0 + bs) ->
    contiguous bs ((a :: run) ++ [b]).
Proof.
  induction run as [|c tl IH]; intros a b Hc Hb.
  - cbn in *. auto.
  - destruct Hc as [Hc1 Hc2]. cbn [app contiguous]. split; [exact Hc1|].
    apply (IH c b Hc2). exact Hb.
Qed.

(** [runs] cuts the list, in order, into contiguous stretches none of
    which continues the one before: the maximal runs. *)
Lemma runs_partition (bl : list Z) :
  List.concat (runs bs bl) = bl /\
  Forall (fun run => run <> [] /\ contiguous bs run) (runs bs bl) /\
  runs_maximal bs (runs bs bl).
Proof.
  induction bl as [|b rest (Hcat & Hall & Hmax)]; [repeat split; constructor|].
  cbn [runs]. destruct (runs bs rest) as [|[|c run] more] eqn:Hr.
  - cbn in Hcat. subst rest. repeat split; cbn; auto.
    constructor; [|constructor]. split; [discriminate | exact I].
  - inversion Hall as [|x l [Hne _] Hl]; contradiction.
  - destruct (Z.eqb_spec c (wrap64 (b + bs))) as [Heq|Hneq].
    + repeat split.
      * cbn in *. now rewrite Hcat.
      * inversion Hall as [|x l [_ Hc] Hl]; subst.
        constructor; [|exact Hl]. split; [discriminate|].
        split; [reflexivity || assumption | assumption].
      * destruct more as [|r2 more']; [exact I|].
        destruct Hmax as [Hm1 Hm2]. split; [|exact Hm2].
        change (last (b :: c :: run) 0) with (last (c :: run) 0). exact Hm1.
    + repeat split.
      * cbn in *. now rewrite Hcat.
      * constructor; [|exact Hall]. split; [discriminate | exact I].
      * exact Hneq.
      * exact Hmax.
Qed.

End Runs.

(** *** The loop of [hidden_blocks_show] against the runs *)

Section Formatter.

Variable e : env.
Hypothesis block_sz_pos : 0 < block_sz e.

(** A text that fits is written whole. *)
Lemma sysfs_emit_at_fits (buf text : string) :
  (String.length buf + String.length text < PAGE_SIZE e)%nat ->
  sysfs_emit_at e buf (String.length buf) text
    = ((buf ++ text)%string, String.length text).
Proof.
  intros Hfit. unfold sysfs_emit_at.
  destruct (Nat.leb_spec (PAGE_SIZE e) (String.length buf)); [lia|].
  rewrite Nat.min_l by lia. now rewrite substring_all.
Qed.

Lemma run_size_pos (a : Z) (tl : list Z) : 0 < run_size (block_sz e) (a :: tl).
Proof.
  unfold run_size. change (List.length (a :: tl)) with (S (List.length tl)).
  rewrite Nat2Z.inj_succ. nia.
Qed.

Lemma run_size_snoc (run : list Z) (b : Z) :
  run_size (block_sz e) (run ++ [b])
    = run_size (block_sz e) run + block_sz e.
Proof.
  unfold run_size. rewrite length_app, Nat2Z.inj_add. cbn [List.length]. lia.
Qed.

Lemma render_runs_break (run bl : list Z) :
  runs (block_sz e) (run ++ bl) = run :: runs (block_sz e) bl ->
  render_runs (block_sz e) (run ++ bl)
    = (run_line (block_sz e) run ++ render_runs (block_sz e) bl)%string.
Proof. unfold render_runs. now intros ->. Qed.

(** The loop entered with an open run [a :: tl] in its locals, the blocks
    [bl] still to come and [buf] already written, followed by the code
    after the loop: when nothing has to be cut, the buffer ends up holding
    [buf] and then one line per run of [(a :: tl) ++ bl]. *)
Lemma show_loop_open_run (bl : list Z) :
  forall (a : Z) (tl : list Z) (buf : string),
    contiguous (block_sz e) (a :: tl) ->
    Z.of_nat (List.length (a :: tl) + List.length bl) * block_sz e
      < U64_MODULUS ->
    (String.length buf +
     String.length (render_runs (block_sz e) ((a :: tl) ++ bl))
     < PAGE_SIZE e)%nat ->
    show_finish e
      (hidden_blocks_show_loop e bl a (run_size (block_sz e) (a :: tl)) buf
         (String.length buf))
    = ((buf ++ render_runs (block_sz e) ((a :: tl) ++ bl))%string,
       String.length (buf ++ render_runs (block_sz e) ((a :: tl) ++ bl))).
Proof.
  induction bl as [|b rest IH]; intros a tl buf Hc Hsz Hfit.
  - pose proof (runs_app_contiguous (block_sz e) (a :: tl) []
                  ltac:(discriminate) Hc I) as Hruns.
    change (runs (block_sz e) []) with (@nil (list Z)) in Hruns.
    rewrite (render_runs_break _ _ Hruns) in *.
    change (render_runs (block_sz e) []) with EmptyString in *.
    rewrite string_app_nil_r in *.
    cbn [hidden_blocks_show_loop show_finish].
    pose proof (run_size_pos a tl) as Hpos.
    destruct (Z.eqb_spec (run_size (block_sz e) (a :: tl)) 0); [lia|].
    destruct (Nat.ltb_spec (String.length buf) (PAGE_SIZE e)); [|lia].
    cbn [negb andb]. cbn [run_line] in *.
    rewrite sysfs_emit_at_fits by exact Hfit.
    now rewrite string_length_app.
  - cbn [hidden_blocks_show_loop].
    destruct (Nat.leb_spec (PAGE_SIZE e) (String.length buf)); [lia|].
    pose proof (run_size_pos a tl) as Hpos.
    destruct (Z.eqb_spec (run_size (block_sz e) (a :: tl)) 0); [lia|].
    pose proof (contiguous_last (block_sz e) tl a Hc) as Hlast.
    destruct (Z.eqb_spec (wrap64 (a + run_size (block_sz e) (a :: tl))) b)
      as [Heq|Hneq].
    + assert (Hc' : contiguous (block_sz e) (a :: (tl ++ [b]))).
      { apply (contiguous_snoc (block_sz e) tl a b Hc). congruence. }
      assert (Hsize : wrap64 (run_size (block_sz e) (a :: tl) + block_sz e)
                      = run_size (block_sz e) (a :: (tl ++ [b]))).
      { change (a :: (tl ++ [b])) with ((a :: tl) ++ [b]).
        rewrite run_size_snoc. apply wrap64_small.
        unfold is_u64, run_size in *. cbn [List.length] in *.
        rewrite !Nat2Z.inj_add, !Nat2Z.inj_succ in Hsz.
        rewrite Nat2Z.inj_succ in *. nia. }
      rewrite Hsize.
      assert (Happ : (a :: tl) ++ b :: rest = (a :: (tl ++ [b])) ++ rest).
      { cbn [app]. now rewrite <- app_assoc. }
      rewrite Happ in *. apply IH; [exact Hc' | | exact Hfit].
      cbn [List.length] in *. rewrite length_app. cbn [List.length].
      replace (S (List.length tl + 1) + List.length rest)%nat
        with (S (List.length tl) + S (List.length rest))%nat by lia.
      exact Hsz.
    + assert (Hruns : runs (block_sz e) ((a :: tl) ++ b :: rest)
                      = (a :: tl) :: runs (block_sz e) (b :: rest)).
      { apply runs_app_contiguous; [discriminate | exact Hc |].
        intros Hb. apply Hneq. congruence. }
      rewrite (render_runs_break _ _ Hruns) in *.
      rewrite string_length_app in Hfit.
      cbn [run_line] in *.
      rewrite sysfs_emit_at_fits by lia.
      rewrite <- string_length_app, <- string_app_assoc.
      assert (Hone : run_size (block_sz e) [b] = block_sz e)
        by (unfold run_size; cbn [List.length]; lia).
      pose proof (IH b []
                    (buf ++ fmt_line a
                       (wrap64 (a + run_size (block_sz e) (a :: tl) - 1))
                       (run_size (block_sz e) (a :: tl)))%string I) as IHb.
      rewrite Hone in IHb. apply IHb.
      * cbn [List.length] in *.
        rewrite !Nat2Z.inj_add, !Nat2Z.inj_succ in *. nia.
      * rewrite string_length_app. cbn [app]. lia.
Qed.

Lemma hidden_blocks_show_unfold (st : state) :
  hidden_blocks_show e st =
    show_finish e
      (hidden_blocks_show_loop e (hidden_blocks st) 0 0 EmptyString O).
Proof. reflexivity. Qed.

(** The whole of [hidden_blocks_show], when nothing has to be cut. *)
Lemma hidden_blocks_show_fits (st : state) :
  Z.of_nat (List.length (hidden_blocks st)) * block_sz e < U64_MODULUS ->
  (String.length (render_runs (block_sz e) (hidden_blocks st))
   < PAGE_SIZE e)%nat ->
  hidden_blocks_show e st =
    (render_runs (block_sz e) (hidden_blocks st),
     String.length (render_runs (block_sz e) (hidden_blocks st))).
Proof.
  intros Hsz Hfit. rewrite hidden_blocks_show_unfold.
  destruct (hidden_blocks st) as [|b rest]; [reflexivity|].
  cbn [hidden_blocks_show_loop].
  destruct (Nat.leb_spec (PAGE_SIZE e) 0); [lia|]. cbn [Z.eqb].
  assert (Hone : run_size (block_sz e) [b] = block_sz e)
    by (unfold run_size; cbn [List.length]; lia).
  pose proof (show_loop_open_run rest b [] EmptyString I Hsz Hfit) as Hloop.
  rewrite Hone in Hloop. exact Hloop.
Qed.

End Formatter.

Lemma contiguous_blocks_run (bs : Z) (k : nat) :
  0 < bs ->
  forall a,
    0 <= a -> a + Z.of_nat (S k) * bs <= U64_MODULUS ->
    contiguous bs (contiguous_blocks bs a (S k)) /\
    List.length (contiguous_blocks bs a (S k)) = S k /\
    hd 0 (contiguous_blocks bs a (S k)) = a.
Proof.
  intros Hbs. induction k as [|k IH]; intros a Ha Hfit.
  - cbn. auto.
  - rewrite Nat2Z.inj_succ in Hfit.
    destruct (IH (a + bs)) as (Hc & Hl & Hh); [lia | nia |].
    change (contiguous_blocks bs a (S (S k)))
      with (a :: contiguous_blocks bs (a + bs) (S k)).
    split; [|split].
    + destruct (contiguous_blocks bs (a + bs) (S k)) as [|b tl];
        [discriminate|].
      cbn [hd] in Hh. subst b. split; [|exact Hc].
      symmetry. apply wrap64_small. unfold is_u64. nia.
    + cbn [List.length]. now rewrite Hl.
    + reflexivity.
Qed.

(** C8 as stated fails: a report longer than the sysfs buffer is cut. Two
    hundred isolated blocks are two hundred runs and 5160 characters of
    report; with a [PAGE_SIZE] of 4096 [hidden_blocks_show] returns 4095
    characters holding 160 lines. *)
Lemma hidden_blocks_show_cuts_long_report :
  let e := Fixture.scenario in
  let st := Fixture.holding (isolated_blocks 0x1000 0x10000 200) in
  List.length (runs (block_sz e) (hidden_blocks st)) = 200%nat /\
  Z.of_nat (String.length (render_runs (block_sz e) (hidden_blocks st)))
    = 5160 /\
  snd (hidden_blocks_show e st) = 4095%nat /\
  count_lines (fst (hidden_blocks_show e st)) = 160%nat /\
  fst (hidden_blocks_show e st)
    <> render_runs (block_sz e) (hidden_blocks st).
Proof.
  cbv zeta. repeat split; try (vm_compute; reflexivity).
  intros H. apply (f_equal String.length) in H. vm_compute in H.
  discriminate.
Qed.

(** C8, amended. For a hidden block list whose blocks add up to less than
    2^64 bytes and whose report is shorter than [PAGE_SIZE],
    [hidden_blocks_show] writes exactly one line
    [run_start-run_end (run_size)] per maximal run of address-contiguous
    blocks, in list order, and returns the length of that text; the runs
    are the list itself cut into stretches in which each next address is
    the previous one plus the block size, none continuing the one before;
    the call leaves the globals, the list among them, as they were. In
    particular [k >= 1] contiguous blocks starting at [a], not running
    past the end of the address space, give the single line
    [a-(a + k * block_sz - 1) (k * block_sz)]. (A longer report is cut to
    the buffer.) *)
Theorem hidden_blocks_show_one_line_per_run (e : env) (st : state) :
  0 < block_sz e ->
  Z.of_nat (List.length (hidden_blocks st)) * block_sz e < U64_MODULUS ->
  (String.length (render_runs (block_sz e) (hidden_blocks st))
   < PAGE_SIZE e)%nat ->
  hidden_blocks_show e st =
    (render_runs (block_sz e) (hidden_blocks st),
     String.length (render_runs (block_sz e) (hidden_blocks st))) /\
  List.concat (runs (block_sz e) (hidden_blocks st)) = hidden_blocks st /\
  Forall (fun run => run <> [] /\ contiguous (block_sz e) run)
    (runs (block_sz e) (hidden_blocks st)) /\
  runs_maximal (block_sz e) (runs (block_sz e) (hidden_blocks st)) /\
  run_op (e, OpHiddenBlocksShow) st = st /\
  (forall a k,
     0 <= a -> a + Z.of_nat (S k) * block_sz e <= U64_MODULUS ->
     hidden_blocks st = contiguous_blocks (block_sz e) a (S k) ->
     fst (hidden_blocks_show e st) =
       fmt_line a (a + Z.of_nat (S k) * block_sz e - 1)
         (Z.of_nat (S k) * block_sz e)).
Proof.
  intros Hbs Hsz Hfit.
  pose proof (hidden_blocks_show_fits e Hbs st Hsz Hfit) as Hshow.
  destruct (runs_partition (block_sz e) (hidden_blocks st))
    as (Hcat & Hall & Hmax).
  repeat (split; [assumption || reflexivity|]).
  intros a k Ha Htop Hbl. rewrite Hshow. cbn [fst]. rewrite Hbl.
  destruct (contiguous_blocks_run (block_sz e) k Hbs a Ha Htop)
    as (Hc & Hlen & Hhd).
  pose proof (runs_app_contiguous (block_sz e)
                (contiguous_blocks (block_sz e) a (S k)) []
                ltac:(discriminate) Hc I) as Hruns.
  rewrite app_nil_r in Hruns. unfold render_runs. rewrite Hruns.
  cbn [map fold_right runs]. rewrite string_app_nil_r.
  unfold run_line, run_size. rewrite Hlen.
  change (contiguous_blocks (block_sz e) a (S k))
    with (a :: contiguous_blocks (block_sz e) (a + block_sz e) k).
  cbv iota. rewrite wrap64_small; [reflexivity|].
  unfold is_u64. rewrite Nat2Z.inj_succ in *. nia.
Qed.

(** C8 amended, at the scenario: the four blocks from 0x4000 on are one
    line, [0x4000-0x7fff (0x4000)]. *)
Lemma hidden_blocks_show_one_line_per_run_witness :
  hidden_blocks_show Fixture.scenario (Fixture.holding Fixture.four_blocks)
    = (("0x4000-0x7fff (0x4000)" ++ newline)%string, 23%nat) /\
  fst (hidden_blocks_show Fixture.scenario
         (Fixture.holding Fixture.four_blocks))
    = fmt_line 0x4000 0x7FFF 0x4000.
Proof.
  destruct (hidden_blocks_show_one_line_per_run Fixture.scenario
              (Fixture.holding Fixture.four_blocks))
    as (Hshow & _ & _ & _ & _ & Hline).
  - reflexivity.
  - reflexivity.
  - vm_compute. lia.
  - split; [exact Hshow|].
    apply (Hline 0x4000 3%nat); [lia | vm_compute; discriminate | reflexivity].
Defined.

(** * Beyond the claims *)

(** ** Reports cut to the buffer *)

Lemma cut_all (s : string) :
  forall n, (String.length s <= n)%nat -> cut n s = s.
Proof.
  unfold cut. induction s as [|c s IH]; intros [|n] H; simpl in *;
    try reflexivity; try lia.
  rewrite IH by lia. reflexivity.
Qed.

Lemma cut_length (s : string) :
  forall n, String.length (cut n s) = Nat.min n (String.length s).
Proof.
  unfold cut. induction s as [|c s IH]; intros [|n]; simpl; try reflexivity.
  now rewrite IH.
Qed.

Lemma cut_app_short (s1 s2 : string) :
  forall n, (String.length s1 <= n)%nat ->
    cut n (s1 ++ s2) = (s1 ++ cut (n - String.length s1) s2)%string.
Proof.
  unfold cut. induction s1 as [|c s1 IH]; intros n H; simpl in *.
  - now rewrite Nat.sub_0_r.
  - destruct n as [|n]; [lia|]. simpl. rewrite IH by lia. reflexivity.
Qed.

Lemma cut_app_long (s1 s2 : string) :
  forall n, (n <= String.length s1)%nat -> cut n (s1 ++ s2) = cut n s1.
Proof.
  unfold cut. induction s1 as [|c s1 IH]; intros [|n] H; simpl in *;
    try reflexivity; try lia.
  - now destruct s2.
  - rewrite IH by lia. reflexivity.
Qed.

Lemma cut_min (s : string) :
  forall k, cut (Nat.min (String.length s) k) s = cut k s.
Proof.
  intros k. destruct (Nat.le_ge_cases (String.length s) k) as [H|H].
  - rewrite Nat.min_l by lia. now rewrite !cut_all by lia.
  - now rewrite Nat.min_r by lia.
Qed.

(** Cutting once more after appending loses nothing new. *)
Lemma cut_cut_app (s t : string) (n : nat) :
  cut n (cut n s ++ t) = cut n (s ++ t).
Proof.
  destruct (Nat.le_ge_cases (String.length s) n) as [H|H].
  - now rewrite (cut_all s) by lia.
  - rewrite (cut_app_long s t) by lia.
    rewrite cut_app_short by (rewrite cut_length; lia).
    rewrite cut_length, Nat.min_l, Nat.sub_diag by lia.
    unfold cut at 2. destruct t; simpl; now rewrite string_app_nil_r.
Qed.

Section CutReports.

Variable e : env.

(** What one [sysfs_emit_at] at the end of the text gives: the text so
    far and the new text, cut to one character less than the buffer. *)
Lemma sysfs_emit_at_cut (buf text : string) :
  (String.length buf <= PAGE_SIZE e - 1)%nat ->
  fst (sysfs_emit_at e buf (String.length buf) text)
    = cut (PAGE_SIZE e - 1) (buf ++ text) /\
  (String.length buf + snd (sysfs_emit_at e buf (String.length buf) text))%nat
    = String.length (cut (PAGE_SIZE e - 1) (buf ++ text)).
Proof.
  intros Hlen. unfold sysfs_emit_at.
  destruct (Nat.leb_spec (PAGE_SIZE e) (String.length buf)) as [Hfull|Hroom];
    cbn [fst snd].
  - assert (Hnil : buf = EmptyString)
      by (destruct buf; [reflexivity | simpl in *; lia]).
    subst buf. replace (PAGE_SIZE e - 1)%nat with O by (simpl in *; lia).
    unfold cut. simpl. now destruct text.
  - rewrite cut_app_short by lia.
    replace (PAGE_SIZE e - String.length buf - 1)%nat
      with (PAGE_SIZE e - 1 - String.length buf)%nat by lia.
    fold (cut (Nat.min (String.length text)
                 (PAGE_SIZE e - 1 - String.length buf)) text).
    rewrite cut_min. split; [reflexivity|].
    rewrite string_length_app, !cut_length. lia.
Qed.

Lemma ranges_show_loop_cut (rs : list range) :
  forall buf,
    (String.length buf <= PAGE_SIZE e - 1)%nat ->
    ranges_show_loop e rs buf (String.length buf)
      = (cut (PAGE_SIZE e - 1) (buf ++ ranges_report rs),
         String.length (cut (PAGE_SIZE e - 1) (buf ++ ranges_report rs))).
Proof.
  induction rs as [|r rest IH]; intros buf Hlen.
  - cbn [ranges_show_loop ranges_report map fold_right].
    rewrite string_app_nil_r, cut_all by lia. reflexivity.
  - cbn [ranges_show_loop].
    change (ranges_report (r :: rest))
      with (range_line r ++ ranges_report rest)%string.
    destruct (Nat.ltb_spec (String.length buf) (PAGE_SIZE e)) as [Hroom|Hfull].
    + destruct (sysfs_emit_at_cut buf (range_line r) Hlen) as [Hbuf Hcount].
      unfold range_line in *.
      destruct (sysfs_emit_at e buf (String.length buf)
                  (fmt_line (r_start r) (r_end r) (range_len r)))
        as [buf1 n]. cbn [fst snd] in *. subst buf1. rewrite Hcount.
      rewrite IH by (rewrite cut_length; lia).
      rewrite cut_cut_app, string_app_assoc. reflexivity.
    + assert (Hnil : buf = EmptyString)
        by (destruct buf; [reflexivity | simpl in *; lia]).
      subst buf. replace (PAGE_SIZE e - 1)%nat with O by (simpl in *; lia).
      unfold cut. simpl. now destruct (range_line r ++ ranges_report rest)%string.
Qed.

End CutReports.

(** X1. [ranges_show] writes the report on the range map, one line
    [start-end (length)] per range in map order, cut to [PAGE_SIZE - 1]
    characters, and returns the number of characters written; a report
    shorter than [PAGE_SIZE] is written whole. *)
Theorem ranges_show_is_cut_report (e : env) (st : state) :
  ranges_show e st
    = (cut (PAGE_SIZE e - 1) (ranges_report (ranges st)),
       String.length (cut (PAGE_SIZE e - 1) (ranges_report (ranges st)))) /\
  ((String.length (ranges_report (ranges st)) < PAGE_SIZE e)%nat ->
   ranges_show e st
     = (ranges_report (ranges st),
        String.length (ranges_report (ranges st)))).
Proof.
  assert (Hshow : ranges_show e st
            = (cut (PAGE_SIZE e - 1) (ranges_report (ranges st)),
               String.length
                 (cut (PAGE_SIZE e - 1) (ranges_report (ranges st))))).
  { unfold ranges_show.
    apply (ranges_show_loop_cut e (ranges st) EmptyString). simpl. lia. }
  split; [exact Hshow|]. intros Hfit. rewrite Hshow.
  now rewrite cut_all by lia.
Qed.

(** X1, at the scenario: two ranges, two lines. *)
Lemma ranges_show_is_cut_report_witness :
  ranges_show Fixture.scenario Fixture.mapped
    = (("0x0-0xfff (0x1000)" ++ newline ++
        "0x4000-0x7fff (0x4000)" ++ newline)%string, 42%nat).
Proof.
  destruct (ranges_show_is_cut_report Fixture.scenario Fixture.mapped)
    as [_ Hfit].
  rewrite Hfit; [reflexivity|]. vm_compute. lia.
Defined.

Lemma cut_0 (s : string) : cut 0 s = EmptyString.
Proof. unfold cut. now destruct s. Qed.

Lemma page_full_empty (page : nat) (buf : string) :
  (page <= String.length buf)%nat -> (String.length buf <= page - 1)%nat ->
  buf = EmptyString /\ (page - 1 = 0)%nat.
Proof.
  intros H1 H2. destruct buf; simpl in *; [split; [reflexivity | lia] | lia].
Qed.

Section CutHiddenReport.

Variable e : env.
Hypothesis block_sz_pos : 0 < block_sz e.

(** The loop entered with an open run, and the code after it, whatever
    the length of the report: the buffer ends up holding the text so far
    and the lines of all runs, cut to one character less than the
    buffer. *)
Lemma show_loop_open_run_cut (bl : list Z) :
  forall (a : Z) (tl : list Z) (buf : string),
    contiguous (block_sz e) (a :: tl) ->
    Z.of_nat (List.length (a :: tl) + List.length bl) * block_sz e
      < U64_MODULUS ->
    (String.length buf <= PAGE_SIZE e - 1)%nat ->
    show_finish e
      (hidden_blocks_show_loop e bl a (run_size (block_sz e) (a :: tl)) buf
         (String.length buf))
    = (cut (PAGE_SIZE e - 1)
         (buf ++ render_runs (block_sz e) ((a :: tl) ++ bl)),
       String.length
         (cut (PAGE_SIZE e - 1)
            (buf ++ render_runs (block_sz e) ((a :: tl) ++ bl)))).
Proof.
  induction bl as [|b rest IH]; intros a tl buf Hc Hsz Hlen;
    pose proof (run_size_pos e block_sz_pos a tl) as Hpos.
  - pose proof (runs_app_contiguous (block_sz e) (a :: tl) []
                  ltac:(discriminate) Hc I) as Hruns.
    change (runs (block_sz e) []) with (@nil (list Z)) in Hruns.
    rewrite (render_runs_break e _ _ Hruns).
    change (render_runs (block_sz e) []) with EmptyString.
    rewrite string_app_nil_r.
    cbn [hidden_blocks_show_loop show_finish].
    destruct (Z.eqb_spec (run_size (block_sz e) (a :: tl)) 0); [lia|].
    cbn [negb andb].
    destruct (Nat.ltb_spec (String.length buf) (PAGE_SIZE e)) as [Hroom|Hfull].
    + cbn [run_line].
      destruct (sysfs_emit_at_cut e buf
                  (fmt_line a
                     (wrap64 (a + run_size (block_sz e) (a :: tl) - 1))
                     (run_size (block_sz e) (a :: tl))) Hlen)
        as [Hbuf Hcount].
      destruct (sysfs_emit_at e buf (String.length buf) _) as [buf1 emitted].
      cbn [fst snd] in *. subst buf1. now rewrite Hcount.
    + destruct (page_full_empty _ _ Hfull Hlen) as [-> ->].
      now rewrite cut_0.
  - cbn [hidden_blocks_show_loop].
    destruct (Nat.leb_spec (PAGE_SIZE e) (String.length buf)) as [Hfull|Hroom].
    + cbn [show_finish].
      destruct (Nat.ltb_spec (String.length buf) (PAGE_SIZE e)); [lia|].
      rewrite andb_false_r.
      destruct (page_full_empty _ _ Hfull Hlen) as [-> ->].
      now rewrite cut_0.
    + destruct (Z.eqb_spec (run_size (block_sz e) (a :: tl)) 0); [lia|].
      pose proof (contiguous_last (block_sz e) tl a Hc) as Hlast.
      destruct (Z.eqb_spec (wrap64 (a + run_size (block_sz e) (a :: tl))) b)
        as [Heq|Hneq].
      * assert (Hc' : contiguous (block_sz e) (a :: (tl ++ [b]))).
        { apply (contiguous_snoc (block_sz e) tl a b Hc). congruence. }
        assert (Hsize : wrap64 (run_size (block_sz e) (a :: tl) + block_sz e)
                        = run_size (block_sz e) (a :: (tl ++ [b]))).
        { change (a :: (tl ++ [b])) with ((a :: tl) ++ [b]).
          rewrite run_size_snoc. apply wrap64_small.
          unfold is_u64, run_size in *. cbn [List.length] in *.
          rewrite !Nat2Z.inj_add, !Nat2Z.inj_succ in Hsz.
          rewrite Nat2Z.inj_succ in *. nia. }
        rewrite Hsize.
        assert (Happ : (a :: tl) ++ b :: rest = (a :: (tl ++ [b])) ++ rest).
        { cbn [app]. now rewrite <- app_assoc. }
        rewrite Happ. apply IH; [exact Hc' | | exact Hlen].
        cbn [List.length] in *. rewrite length_app. cbn [List.length].
        replace (S (List.length tl + 1) + List.length rest)%nat
          with (S (List.length tl) + S (List.length rest))%nat by lia.
        exact Hsz.
      * assert (Hruns : runs (block_sz e) ((a :: tl) ++ b :: rest)
                        = (a :: tl) :: runs (block_sz e) (b :: rest)).
        { apply runs_app_contiguous; [discriminate | exact Hc |].
          intros Hb. apply Hneq. congruence. }
        rewrite (render_runs_break e _ _ Hruns). cbn [run_line].
        destruct (sysfs_emit_at_cut e buf
                    (fmt_line a
                       (wrap64 (a + run_size (block_sz e) (a :: tl) - 1))
                       (run_size (block_sz e) (a :: tl))) Hlen)
          as [Hbuf Hcount].
        destruct (sysfs_emit_at e buf (String.length buf) _) as [buf1 emitted].
        cbn [fst snd] in *. subst buf1. rewrite Hcount.
        assert (Hone : run_size (block_sz e) [b] = block_sz e)
          by (unfold run_size; cbn [List.length]; lia).
        pose proof (IH b []
                      (cut (PAGE_SIZE e - 1)
                         (buf ++ fmt_line a
                            (wrap64 (a + run_size (block_sz e) (a :: tl) - 1))
                            (run_size (block_sz e) (a :: tl)))) I) as IHb.
        rewrite Hone in IHb. rewrite IHb.
        -- cbn [app]. now rewrite cut_cut_app, string_app_assoc.
        -- cbn [List.length] in *.
           rewrite !Nat2Z.inj_add, !Nat2Z.inj_succ in *. nia.
        -- rewrite cut_length. lia.
Qed.

End CutHiddenReport.

(** X2. [hidden_blocks_show], for any hidden block list whose blocks add
    up to less than 2^64 bytes, writes the report on the list, one line
    per maximal run of contiguous blocks, cut to [PAGE_SIZE - 1]
    characters, and returns the number of characters written: what does
    not fit is dropped from the end, line boundaries or not. *)
Theorem hidden_blocks_show_is_cut_report (e : env) (st : state) :
  0 < block_sz e ->
  Z.of_nat (List.length (hidden_blocks st)) * block_sz e < U64_MODULUS ->
  hidden_blocks_show e st
    = (cut (PAGE_SIZE e - 1) (render_runs (block_sz e) (hidden_blocks st)),
       String.length
         (cut (PAGE_SIZE e - 1)
            (render_runs (block_sz e) (hidden_blocks st)))).
Proof.
  intros Hbs Hsz. rewrite hidden_blocks_show_unfold.
  destruct (hidden_blocks st) as [|b rest].
  - cbn [hidden_blocks_show_loop show_finish Z.eqb negb andb].
    change (render_runs (block_sz e) []) with EmptyString.
    now rewrite cut_all by (simpl; lia).
  - cbn [hidden_blocks_show_loop].
    destruct (Nat.leb_spec (PAGE_SIZE e) 0) as [Hfull|Hroom].
    + cbn [show_finish Z.eqb negb andb].
      replace (PAGE_SIZE e - 1)%nat with O by lia.
      now rewrite cut_0.
    + cbn [Z.eqb].
      assert (Hone : run_size (block_sz e) [b] = block_sz e)
        by (unfold run_size; cbn [List.length]; lia).
      pose proof (show_loop_open_run_cut e Hbs rest b [] EmptyString I Hsz
                    ltac:(simpl; lia)) as Hloop.
      rewrite Hone in Hloop. exact Hloop.
Qed.

(** X2, at two hundred isolated blocks: the 5160 characters of the full
    report come out as their first 4095. *)
Lemma hidden_blocks_show_is_cut_report_witness :
  let st := Fixture.holding (isolated_blocks 0x1000 0x10000 200) in
  hidden_blocks_show Fixture.scenario st
    = (cut 4095 (render_runs 0x1000 (hidden_blocks st)), 4095%nat).
Proof.
  cbv zeta.
  rewrite (hidden_blocks_show_is_cut_report Fixture.scenario
             (Fixture.holding (isolated_blocks 0x1000 0x10000 200))).
  - vm_compute. reflexivity.
  - reflexivity.
  - vm_compute. reflexivity.
Defined.

(** The loop of [hidden_blocks_show] keeps the count equal to the length
    of the text and below the size of the buffer, whatever the list. *)
Lemma hidden_blocks_show_loop_bounded (e : env) (bl : list Z) :
  forall start size buf,
    (String.length buf <= PAGE_SIZE e - 1)%nat ->
    snd (hidden_blocks_show_loop e bl start size buf (String.length buf))
      = String.length
          (snd (fst (hidden_blocks_show_loop e bl start size buf
                       (String.length buf)))) /\
    (String.length
       (snd (fst (hidden_blocks_show_loop e bl start size buf
                    (String.length buf)))) <= PAGE_SIZE e - 1)%nat.
Proof.
  induction bl as [|b rest IH]; intros start size buf Hlen;
    cbn [hidden_blocks_show_loop]; [split; [reflexivity | exact Hlen]|].
  destruct (PAGE_SIZE e <=? String.length buf)%nat;
    [split; [reflexivity | exact Hlen]|].
  destruct (size =? 0); [now apply IH|].
  destruct (wrap64 (start + size) =? b); [now apply IH|].
  destruct (sysfs_emit_at_cut e buf
              (fmt_line start (wrap64 (start + size - 1)) size) Hlen)
    as [Hbuf Hcount].
  destruct (sysfs_emit_at e buf (String.length buf) _) as [buf1 emitted].
  cbn [fst snd] in *. subst buf1. rewrite Hcount.
  apply IH. rewrite cut_length. lia.
Qed.

(** X3. Whatever the globals hold, [hidden_blocks_show] and [ranges_show]
    return exactly the number of characters they left in the buffer, and
    that is never more than [PAGE_SIZE - 1]. *)
Theorem show_output_within_page (e : env) (st : state) :
  snd (hidden_blocks_show e st) = String.length (fst (hidden_blocks_show e st)) /\
  (snd (hidden_blocks_show e st) <= PAGE_SIZE e - 1)%nat /\
  snd (ranges_show e st) = String.length (fst (ranges_show e st)) /\
  (snd (ranges_show e st) <= PAGE_SIZE e - 1)%nat.
Proof.
  assert (Hhidden :
    snd (hidden_blocks_show e st)
      = String.length (fst (hidden_blocks_show e st)) /\
    (String.length (fst (hidden_blocks_show e st)) <= PAGE_SIZE e - 1)%nat).
  { rewrite hidden_blocks_show_unfold.
    destruct (hidden_blocks_show_loop_bounded e (hidden_blocks st) 0 0
                EmptyString ltac:(simpl; lia)) as [Hcount Hlen].
    change (String.length EmptyString) with O in *.
    destruct (hidden_blocks_show_loop e (hidden_blocks st) 0 0 EmptyString 0)
      as [[[start size] buf] count]. cbn [fst snd] in *. subst count.
    cbn [show_finish].
    destruct (negb (size =? 0) && (String.length buf <? PAGE_SIZE e)%nat);
      [|split; [reflexivity | exact Hlen]].
    destruct (sysfs_emit_at_cut e buf
                (fmt_line start (wrap64 (start + size - 1)) size) Hlen)
      as [Hbuf Hemit].
    destruct (sysfs_emit_at e buf (String.length buf) _) as [buf1 emitted].
    cbn [fst snd] in *. subst buf1. rewrite Hemit.
    split; [reflexivity|]. rewrite cut_length. lia. }
  destruct Hhidden as [H1 H2].
  assert (Hr : ranges_show e st
            = (cut (PAGE_SIZE e - 1) (ranges_report (ranges st)),
               String.length
                 (cut (PAGE_SIZE e - 1) (ranges_report (ranges st))))).
  { unfold ranges_show.
    apply (ranges_show_loop_cut e (ranges st) EmptyString). simpl. lia. }
  repeat split.
  - exact H1.
  - now rewrite H1.
  - now rewrite Hr.
  - rewrite Hr. cbn [snd]. rewrite cut_length. lia.
Qed.

(** ** The probe entry point *)

(** On a power of two, [IS_ALIGNED] tests divisibility. *)
Lemma IS_ALIGNED_pow2 (x k : Z) :
  0 <= k < 64 -> IS_ALIGNED x (2 ^ k) = (x mod 2 ^ k =? 0).
Proof.
  intros Hk. unfold IS_ALIGNED.
  assert (Hpow : 0 < 2 ^ k) by (apply Z.pow_pos_nonneg; lia).
  assert (Hle : 2 ^ k <= 2 ^ 63) by (apply Z.pow_le_mono_r; lia).
  rewrite wrap64_small by (unfold is_u64, U64_MODULUS; lia).
  replace (2 ^ k - 1) with (Z.ones k) by (rewrite Z.ones_equiv; lia).
  now rewrite Z.land_ones by lia.
Qed.

(** X4. With a power-of-two block size, [probe_store] refuses what it
    cannot register and changes nothing then: unparsable input returns
    the code of [kstrtoull], an address that is not a multiple of the
    block size returns [-EINVAL] before the memory manager is asked,
    and a registration that fails returns its code;
    in all three cases every global, [unloadable] included, is as it
    was. *)
Theorem probe_store_errors_change_nothing
  (e : env) (st : state) (buf : string) (count k : Z) :
  0 <= k < 64 ->
  block_sz e = 2 ^ k ->
  (forall rc, kstrtoull e buf = inl rc ->
     probe_store e buf count st = (rc, st)) /\
  (forall phys, kstrtoull e buf = inr phys ->
     phys mod block_sz e <> 0 ->
     probe_store e buf count st = (- EINVAL, st)) /\
  (forall phys, kstrtoull e buf = inr phys ->
     phys mod block_sz e = 0 ->
     add_memory_driver_managed e (memory_add_physaddr_to_nid e phys) phys
       (block_sz e) <> 0 ->
     probe_store e buf count st
       = (add_memory_driver_managed e (memory_add_physaddr_to_nid e phys)
            phys (block_sz e), st)).
Proof.
  intros Hk Hbs. unfold probe_store. repeat split.
  - intros rc ->. reflexivity.
  - intros phys -> Hmod. rewrite Hbs, IS_ALIGNED_pow2 by exact Hk.
    rewrite Hbs in Hmod.
    destruct (Z.eqb_spec (phys mod 2 ^ k) 0); [contradiction | reflexivity].
  - intros phys -> Hmod Hrc. rewrite Hbs in *.
    rewrite IS_ALIGNED_pow2, Hmod by exact Hk. cbn [Z.eqb negb].
    destruct (Z.eqb_spec
                (add_memory_driver_managed e
                   (memory_add_physaddr_to_nid e phys) phys (2 ^ k)) 0);
      [contradiction | reflexivity].
Qed.

(** X4, at the scenario: 0x4800 is not a multiple of 0x1000. *)
Lemma probe_store_errors_change_nothing_witness :
  probe_store Fixture.scenario "0x4800" 6 (Fixture.holding Fixture.four_blocks)
    = (- EINVAL, Fixture.holding Fixture.four_blocks).
Proof.
  destruct (probe_store_errors_change_nothing Fixture.scenario
              (Fixture.holding Fixture.four_blocks) "0x4800" 6 12)
    as (_ & Hunaligned & _); [lia | reflexivity |].
  apply (Hunaligned 0x4800); [reflexivity | vm_compute; discriminate].
Defined.

(** X5. With a power-of-two block size, a probe of a block-aligned
    address that the memory manager accepts returns the byte count and
    takes the one-way ticket: [unloadable] is false afterwards if it was
    already, or if [try_module_get] succeeds. The probe does not look at
    the hidden block list: the list, its counter and the range map are
    as before, also when the probed address is on the list. *)
Theorem probe_store_registers_aligned_block
  (e : env) (st : state) (buf : string) (count k phys : Z) :
  0 <= k < 64 ->
  block_sz e = 2 ^ k ->
  kstrtoull e buf = inr phys ->
  phys mod block_sz e = 0 ->
  add_memory_driver_managed e (memory_add_physaddr_to_nid e phys) phys
    (block_sz e) = 0 ->
  fst (probe_store e buf count st) = count /\
  hidden_blocks (snd (probe_store e buf count st)) = hidden_blocks st /\
  hidden_blocks_cnt (snd (probe_store e buf count st)) = hidden_blocks_cnt st /\
  ranges (snd (probe_store e buf count st)) = ranges st /\
  (unloadable st = false \/ try_module_get e = true ->
   unloadable (snd (probe_store e buf count st)) = false) /\
  (unloadable st = true -> try_module_get e = false ->
   unloadable (snd (probe_store e buf count st)) = true).
Proof.
  intros Hk Hbs Hparse Hmod Hrc. unfold probe_store.
  rewrite Hparse, Hbs in *. rewrite IS_ALIGNED_pow2, Hmod, Hrc by exact Hk.
  cbn [Z.eqb negb fst snd].
  assert (Hframe : hidden_blocks (disable_unload e st) = hidden_blocks st /\
                   hidden_blocks_cnt (disable_unload e st)
                     = hidden_blocks_cnt st /\
                   ranges (disable_unload e st) = ranges st).
  { unfold disable_unload. destruct (unloadable st); cbn [negb];
      [destruct (try_module_get e)|]; repeat split. }
  destruct Hframe as (H1 & H2 & H3). repeat split; auto.
  - apply disable_unload_locks.
  - intros Hu Ht. unfold disable_unload. now rewrite Hu, Ht.
Qed.

(** X5, at the scenario: probing 0x4000 while it is on the hidden block
    list. *)
Lemma probe_store_registers_aligned_block_witness :
  fst (probe_store Fixture.scenario "0x4000" 6
         (Fixture.holding Fixture.four_blocks)) = 6 /\
  hidden_blocks (snd (probe_store Fixture.scenario "0x4000" 6
                        (Fixture.holding Fixture.four_blocks)))
    = Fixture.four_blocks /\
  unloadable (snd (probe_store Fixture.scenario "0x4000" 6
                     (Fixture.holding Fixture.four_blocks))) = false.
Proof.
  destruct (probe_store_registers_aligned_block Fixture.scenario
              (Fixture.holding Fixture.four_blocks) "0x4000" 6 12 0x4000)
    as (Hret & Hlist & _ & _ & Hlock & _);
    [lia | reflexivity | reflexivity | reflexivity | reflexivity |].
  split; [exact Hret|]. split; [exact Hlist|]. apply Hlock. now right.
Defined.

(** ** More on the scavenge engine *)

(** A valid request for at least one block, spelled out. *)
Lemma scavenge_store_valid
  (e : env) (st : state) (buf : string) (count : Z) (N : nat) :
  0 < block_sz e ->
  Z.of_nat (S N) * block_sz e < U64_MODULUS ->
  kstrtoull e buf = inr (Z.of_nat (S N) * block_sz e) ->
  scavenge_store e buf count st =
    (count,
     match hidden_blocks st with
     | [] => set_hidden_blocks [] st
     | _ :: _ =>
         disable_unload e
           (set_hidden_blocks (skipn (S N) (hidden_blocks st)) st)
     end,
     map (register e) (firstn (S N) (hidden_blocks st))).
Proof.
  intros Hbs Hfit Hparse. unfold scavenge_store. rewrite Hparse.
  destruct (Z.eqb_spec (Z.of_nat (S N) * block_sz e) 0) as [H0|_]; [nia|].
  rewrite Z_mod_mult. cbn [Z.eqb negb orb].
  rewrite (scavenge_loop_blocks e Hbs) by exact Hfit.
  destruct (hidden_blocks st) as [|b rest].
  - rewrite Nat.sub_0_r.
    destruct (Z.gtb_spec (Z.of_nat (S N) * block_sz e)
                (Z.of_nat (S N) * block_sz e)); [lia | reflexivity].
  - destruct (Z.gtb_spec (Z.of_nat (S N) * block_sz e)
                (Z.of_nat (S N - List.length (b :: rest)) * block_sz e))
      as [_|Hle]; [reflexivity|].
    cbn [List.length] in Hle. nia.
Qed.

Lemma disable_unload_frame (e : env) (st : state) :
  hidden_blocks (disable_unload e st) = hidden_blocks st /\
  hidden_blocks_cnt (disable_unload e st) = hidden_blocks_cnt st /\
  ranges (disable_unload e st) = ranges st /\
  n_alloc (disable_unload e st) = n_alloc st.
Proof.
  unfold disable_unload. destruct (unloadable st); cbn [negb];
    [destruct (try_module_get e)|]; repeat split.
Qed.

(** X6. A valid scavenge request for [N >= 1] blocks unlinks the first
    [N] blocks of the list (all of them if there are fewer) whatever the
    memory manager answers: a block whose registration fails is gone
    like the others, the loop goes on to the next one, and the call
    still returns the byte count. Exactly those blocks are handed to the
    memory manager, once each, front to back; the range map is not
    touched. *)
Theorem scavenge_drops_blocks_whatever_registration_returns
  (e : env) (st : state) (buf : string) (count : Z) (N : nat) :
  0 < block_sz e ->
  (1 <= N)%nat ->
  Z.of_nat N * block_sz e < U64_MODULUS ->
  kstrtoull e buf = inr (Z.of_nat N * block_sz e) ->
  let '(ret, st', calls) := scavenge_store e buf count st in
  ret = count /\
  hidden_blocks st' = skipn N (hidden_blocks st) /\
  calls = map (register e) (firstn N (hidden_blocks st)) /\
  attempted calls = Nat.min N (List.length (hidden_blocks st)) /\
  (failed calls <= attempted calls)%nat /\
  ranges st' = ranges st.
Proof.
  intros Hbs HN Hfit Hparse. destruct N as [|N]; [lia|].
  rewrite (scavenge_store_valid e st buf count N Hbs Hfit Hparse).
  split; [reflexivity|]. split; [|split; [reflexivity|split; [|split]]].
  - destruct (hidden_blocks st) as [|b rest] eqn:Hbl; [reflexivity|].
    now destruct (disable_unload_frame e
                    (set_hidden_blocks (skipn (S N) (b :: rest)) st))
      as (-> & _).
  - unfold attempted. now rewrite length_map, length_firstn.
  - unfold failed, attempted. apply filter_length_le.
  - destruct (hidden_blocks st) as [|b rest] eqn:Hbl; [reflexivity|].
    now destruct (disable_unload_frame e
                    (set_hidden_blocks (skipn (S N) (b :: rest)) st))
      as (_ & _ & -> & _).
Qed.

(** X6, with a memory manager that refuses 0x4000: two blocks asked for,
    two gone, one of them refused. *)
Lemma scavenge_drops_blocks_whatever_registration_returns_witness :
  let '(ret, st', calls) :=
    scavenge_store refusing_0x4000 "0x2000" 6
      (Fixture.holding Fixture.four_blocks) in
  ret = 6 /\
  hidden_blocks st' = [0x6000; 0x7000] /\
  calls = [(0x4000, - EINVAL); (0x5000, 0)] /\
  attempted calls = 2%nat /\
  (failed calls <= attempted calls)%nat /\
  ranges st' = Fixture.scenario_ranges.
Proof.
  apply (scavenge_drops_blocks_whatever_registration_returns
           refusing_0x4000 (Fixture.holding Fixture.four_blocks)
           "0x2000" 6 2).
  - reflexivity.
  - lia.
  - reflexivity.
  - reflexivity.
Defined.

Lemma set_hidden_blocks_same (st : state) :
  set_hidden_blocks (hidden_blocks st) st = st.
Proof. now destruct st. Qed.

(** X7. Whatever is written to [scavenge], the hidden block list only
    loses blocks from its front: the old list is the blocks handed to the
    memory manager, in call order, followed by the list left. The range
    map is not touched, a false [unloadable] stays false, and a call
    that registers nothing leaves every global as it was. *)
Theorem scavenge_store_only_consumes_front
  (e : env) (st : state) (buf : string) (count : Z) :
  0 < block_sz e ->
  (forall size, kstrtoull e buf = inr size -> is_u64 size) ->
  let '(ret, st', calls) := scavenge_store e buf count st in
  hidden_blocks st = map fst calls ++ hidden_blocks st' /\
  calls = map (register e) (map fst calls) /\
  (List.length (hidden_blocks st') <= List.length (hidden_blocks st))%nat /\
  ranges st' = ranges st /\
  (unloadable st = false -> unloadable st' = false) /\
  (calls = [] -> st' = st).
Proof.
  intros Hbs Hu64. unfold scavenge_store.
  destruct (kstrtoull e buf) as [rc|size] eqn:Hparse.
  - cbn. repeat split; auto.
  - destruct ((size =? 0) || negb (size mod block_sz e =? 0)).
    + cbn. repeat split; auto.
    + destruct (scavenge_loop e (hidden_blocks st) size)
        as [[bl' size'] calls] eqn:Hloop.
      destruct (scavenge_loop_inv e Hbs _ _ _ _ _ (Hu64 size eq_refl) Hloop)
        as (Hl & Hc & Hs & _ & _).
      destruct (disable_unload_frame e (set_hidden_blocks bl' st))
        as (Hd1 & _ & Hd3 & _).
      assert (Hhb : hidden_blocks
                      (if size >? size'
                       then disable_unload e (set_hidden_blocks bl' st)
                       else set_hidden_blocks bl' st) = bl')
        by (destruct (size >? size'); [exact Hd1 | reflexivity]).
      rewrite Hhb. repeat split.
      * exact Hl.
      * exact Hc.
      * rewrite Hl, length_app. lia.
      * destruct (size >? size'); [exact Hd3 | reflexivity].
      * intros Hu. destruct (size >? size'); [|exact Hu].
        now apply disable_unload_locked.
      * intros ->. cbn [map app List.length] in *. subst bl' size'.
        replace (size - Z.of_nat 0 * block_sz e) with size by (cbn; lia).
        destruct (Z.gtb_spec size size); [lia|].
        apply set_hidden_blocks_same.
Qed.

(** X7, at the scenario, for a request beyond what the list holds. *)
Lemma scavenge_store_only_consumes_front_witness :
  let '(ret, st', calls) :=
    scavenge_store Fixture.scenario "0x8000" 6
      (Fixture.holding Fixture.four_blocks) in
  hidden_blocks (Fixture.holding Fixture.four_blocks)
    = map fst calls ++ hidden_blocks st' /\
  calls = map (register Fixture.scenario) (map fst calls) /\
  (List.length (hidden_blocks st')
   <= List.length (hidden_blocks (Fixture.holding Fixture.four_blocks)))%nat /\
  ranges st' = ranges (Fixture.holding Fixture.four_blocks) /\
  (unloadable (Fixture.holding Fixture.four_blocks) = false ->
   unloadable st' = false) /\
  (calls = [] -> st' = Fixture.holding Fixture.four_blocks).
Proof.
  apply (scavenge_store_only_consumes_front Fixture.scenario
           (Fixture.holding Fixture.four_blocks) "0x8000" 6).
  - reflexivity.
  - intros size Hparse. vm_compute in Hparse. inversion Hparse; subst.
    unfold is_u64. vm_compute. split; [discriminate | reflexivity].
Defined.

Lemma disable_unload_twice (e : env) (st : state) (l : list Z) :
  unloadable
    (disable_unload e (set_hidden_blocks l (disable_unload e st)))
  = unloadable (disable_unload e st).
Proof.
  unfold disable_unload. destruct (unloadable st) eqn:Hu; cbn [negb].
  - destruct (try_module_get e) eqn:Ht; cbn; now rewrite ?Hu, ?Ht.
  - cbn. now rewrite Hu.
Qed.

(** X8. Scavenge calls compose: a valid request for [N] blocks followed
    by one for [M] blocks leaves the hidden block list and [unloadable]
    as a single request for [N + M] blocks does, and together they make
    the same registration calls in the same order. *)
Theorem scavenge_store_twice_is_once
  (e : env) (st : state) (buf1 buf2 buf12 : string) (c1 c2 c12 : Z)
  (N M : nat) :
  0 < block_sz e ->
  (1 <= N)%nat -> (1 <= M)%nat ->
  Z.of_nat (N + M) * block_sz e < U64_MODULUS ->
  kstrtoull e buf1 = inr (Z.of_nat N * block_sz e) ->
  kstrtoull e buf2 = inr (Z.of_nat M * block_sz e) ->
  kstrtoull e buf12 = inr (Z.of_nat (N + M) * block_sz e) ->
  let '(_, st1, calls1) := scavenge_store e buf1 c1 st in
  let '(_, st2, calls2) := scavenge_store e buf2 c2 st1 in
  let '(_, st', calls) := scavenge_store e buf12 c12 st in
  hidden_blocks st2 = hidden_blocks st' /\
  calls1 ++ calls2 = calls /\
  unloadable st2 = unloadable st'.
Proof.
  intros Hbs HN HM Hfit H1 H2 H12.
  destruct N as [|N]; [lia|]. destruct M as [|M]; [lia|].
  rewrite (scavenge_store_valid e st buf1 c1 N Hbs
             ltac:(rewrite Nat2Z.inj_add in Hfit; nia) H1).
  assert (Hcalls : forall bl : list Z,
            map (register e) (firstn (S N) bl) ++
            map (register e) (firstn (S M) (skipn (S N) bl))
            = map (register e) (firstn (S N + S M) bl)).
  { intros bl. rewrite <- map_app. f_equal.
    rewrite <- (firstn_skipn (S N) bl) at 3.
    destruct (Nat.le_gt_cases (List.length bl) (S N)) as [Hshort|Hlong].
    - rewrite skipn_all2, firstn_nil, app_nil_r by lia.
      rewrite firstn_all2 by lia. rewrite firstn_all2; [reflexivity|].
      lia.
    - rewrite firstn_app, length_firstn, Nat.min_l by lia.
      replace (S N + S M - S N)%nat with (S M) by lia.
      rewrite (firstn_all2 (n := (S N + S M)%nat)); [reflexivity|].
      rewrite length_firstn. lia. }
  destruct (hidden_blocks st) as [|b rest] eqn:Hbl.
  - rewrite (scavenge_store_valid e _ buf2 c2 M Hbs
               ltac:(rewrite Nat2Z.inj_add in Hfit; nia) H2).
    rewrite (scavenge_store_valid e st buf12 c12 (N + S M) Hbs
               ltac:(exact Hfit) H12).
    rewrite Hbl. cbn. auto.
  - rewrite (scavenge_store_valid e _ buf2 c2 M Hbs
               ltac:(rewrite Nat2Z.inj_add in Hfit; nia) H2).
    rewrite (scavenge_store_valid e st buf12 c12 (N + S M) Hbs
               ltac:(exact Hfit) H12).
    rewrite Hbl.
    destruct (disable_unload_frame e
                (set_hidden_blocks (skipn (S N) (b :: rest)) st))
      as (Hh & _).
    rewrite Hh. cbn [hidden_blocks set_hidden_blocks].
    change (S (N + S M)) with (S N + S M)%nat.
    split; [|split].
    + destruct (skipn (S N) (b :: rest)) as [|b' rest'] eqn:Hskip.
      * cbn [hidden_blocks set_hidden_blocks].
        destruct (disable_unload_frame e
                    (set_hidden_blocks (skipn (S N + S M) (b :: rest)) st))
          as (-> & _).
        rewrite Nat.add_comm, <- skipn_skipn, Hskip. now rewrite skipn_nil.
      * destruct (disable_unload_frame e
                    (set_hidden_blocks (skipn (S M) (b' :: rest'))
                       (disable_unload e
                          (set_hidden_blocks (b' :: rest') st))))
          as (-> & _).
        destruct (disable_unload_frame e
                    (set_hidden_blocks (skipn (S N + S M) (b :: rest)) st))
          as (-> & _).
        cbn [hidden_blocks set_hidden_blocks].
        now rewrite Nat.add_comm, <- skipn_skipn, Hskip.
    + apply Hcalls.
    + assert (Hflag : forall l l' : list Z,
                unloadable (disable_unload e (set_hidden_blocks l st))
                = unloadable (disable_unload e (set_hidden_blocks l' st))).
      { intros l l'. unfold disable_unload. cbn.
        destruct (unloadable st); cbn; [|reflexivity].
        now destruct (try_module_get e). }
      destruct (skipn (S N) (b :: rest)) as [|b' rest'] eqn:Hskip.
      * cbn [unloadable set_hidden_blocks]. apply Hflag.
      * rewrite disable_unload_twice. apply Hflag.
Qed.

(** X8, at the scenario: one block, then two, against three at once. *)
Lemma scavenge_store_twice_is_once_witness :
  let st := Fixture.holding Fixture.four_blocks in
  let '(_, st1, calls1) := scavenge_store Fixture.scenario "0x1000" 6 st in
  let '(_, st2, calls2) := scavenge_store Fixture.scenario "0x2000" 6 st1 in
  let '(_, st', calls) := scavenge_store Fixture.scenario "0x3000" 6 st in
  hidden_blocks st2 = hidden_blocks st' /\
  calls1 ++ calls2 = calls /\
  unloadable st2 = unloadable st'.
Proof.
  cbv zeta.
  apply (scavenge_store_twice_is_once Fixture.scenario
           (Fixture.holding Fixture.four_blocks)
           "0x1000" "0x2000" "0x3000" 6 6 6 1 2).
  - reflexivity.
  - lia.
  - lia.
  - reflexivity.
  - reflexivity.
  - reflexivity.
  - reflexivity.
Defined.

(** ** More on the scanner *)

Lemma StronglySorted_app {A : Type} (R : A -> A -> Prop) (l1 l2 : list A) :
  StronglySorted R l1 -> StronglySorted R l2 ->
  (forall a b, In a l1 -> In b l2 -> R a b) ->
  StronglySorted R (l1 ++ l2).
Proof.
  induction 1 as [|x l1 Hs IH Hall]; intros H2 Hcross; [exact H2|].
  cbn [app]. constructor.
  - apply IH; [exact H2|]. intros a b Ha Hb. apply Hcross; [now right | exact Hb].
  - apply Forall_app. split; [exact Hall|].
    apply Forall_forall. intros b Hb. apply Hcross; [now left | exact Hb].
Qed.

Lemma StronglySorted_filter {A : Type} (R : A -> A -> Prop) (f : A -> bool)
  (l : list A) :
  StronglySorted R l -> StronglySorted R (filter f l).
Proof.
  induction 1 as [|x l Hs IH Hall]; cbn [filter]; [constructor|].
  destruct (f x); [|exact IH]. constructor; [exact IH|].
  apply Forall_forall. intros y Hy. apply filter_In in Hy.
  rewrite Forall_forall in Hall. now apply Hall.
Qed.

Section ScanResult.

Variable e : env.

(** Unless it takes [goto out], the inner loop appends to the list exactly
    the addresses it asked about that the tracker reported free, in the
    order it asked. *)
Lemma scan_range_appends_free (fuel : nat) (rend : Z) :
  forall start st,
    match fst (scan_range e fuel rend start st) with
    | LoopGoto _ _ => True
    | r =>
        hidden_blocks (loop_state r) =
          hidden_blocks st ++
          filter (fun a => region_disjoint e a (block_sz e))
            (snd (scan_range e fuel rend start st))
    end.
Proof.
  induction fuel as [|fuel IH]; intros start st; cbn [scan_range].
  - cbn. now rewrite app_nil_r.
  - destruct (wrap64 (start + block_sz e) <? rend);
      [|cbn; now rewrite app_nil_r].
    destruct (region_disjoint e start (block_sz e)) eqn:Hfree; cbn [negb].
    + destruct (hidden_block_add_spec e start st) as (_ & _ & _ & Hcase).
      destruct (hidden_block_add e start st) as [rc st1]. cbn [fst snd] in *.
      destruct Hcase as [(_ & -> & Hadd) | (_ & -> & _)]; [|exact I].
      cbn [Z.eqb negb]. specialize (IH (wrap64 (start + block_sz e)) st1).
      destruct (scan_range e fuel rend (wrap64 (start + block_sz e)) st1)
        as [r qs]. cbn [fst snd filter] in *. rewrite Hfree.
      destruct r; cbn [loop_state] in *; try exact I;
        rewrite IH, Hadd, <- app_assoc; reflexivity.
    + specialize (IH (wrap64 (start + block_sz e)) st).
      destruct (scan_range e fuel rend (wrap64 (start + block_sz e)) st)
        as [r qs]. cbn [fst snd filter] in *. rewrite Hfree. exact IH.
Qed.

Lemma scan_ranges_appends_free (fuel : nat) (rs : list range) :
  forall st,
    match fst (scan_ranges e fuel rs st) with
    | LoopGoto _ _ => True
    | r =>
        hidden_blocks (loop_state r) =
          hidden_blocks st ++
          filter (fun a => region_disjoint e a (block_sz e))
            (snd (scan_ranges e fuel rs st))
    end.
Proof.
  induction rs as [|r rest IH]; intros st; cbn [scan_ranges].
  - cbn. now rewrite app_nil_r.
  - pose proof (scan_range_appends_free fuel (r_end r)
                  (ALIGN (r_start r) (block_sz e)) st) as Hin.
    destruct (scan_range e fuel (r_end r) (ALIGN (r_start r) (block_sz e)) st)
      as [[st1|rc st1|st1] qs]; cbn [fst snd loop_state] in *;
      try exact Hin.
    specialize (IH st1). destruct (scan_ranges e fuel rest st1) as [res qs'].
    cbn [fst snd] in *. rewrite filter_app.
    destruct res; cbn [loop_state] in *; try exact I;
      rewrite IH, Hin, <- app_assoc; reflexivity.
Qed.

End ScanResult.

(** X9. When [find_hidden_blocks] returns 0, the hidden block list is the
    list it started from followed by exactly the addresses it asked the
    resource tracker about and found free, in the order asked; the
    counter still agrees with the list if it did, and the range map and
    [unloadable] are as before. *)
Theorem find_hidden_blocks_appends_free_candidates
  (e : env) (fuel : nat) (st st' : state) (qs : list Z) :
  find_hidden_blocks e fuel st = (Returned 0 st', qs) ->
  hidden_blocks st' =
    hidden_blocks st ++ filter (fun a => region_disjoint e a (block_sz e)) qs /\
  (cnt_inv st -> cnt_inv st') /\
  ranges st' = ranges st /\
  unloadable st' = unloadable st.
Proof.
  intros Hrun. unfold find_hidden_blocks in Hrun.
  pose proof (scan_ranges_appends_free e fuel (ranges st) st) as Hblocks.
  pose proof (scan_ranges_frame e fuel (ranges st) st) as Hframe.
  destruct (scan_ranges e fuel (ranges st) st) as [[st1|rc st1|st1] qs1];
    cbn [fst snd loop_state] in *.
  - inversion Hrun; subst.
    destruct Hframe as (_ & Hr & Hu & Hc & _). cbn [loop_state] in *.
    repeat split; auto.
  - destruct Hframe as (_ & _ & _ & _ & Hrc & _).
    inversion Hrun; subst. discriminate.
  - discriminate.
Qed.

(** X9, at the scenario. *)
Lemma find_hidden_blocks_appends_free_candidates_witness :
  hidden_blocks
    (outcome_state (fst (find_hidden_blocks Fixture.scenario 8 Fixture.mapped)))
  = [] ++ filter (fun a => region_disjoint Fixture.scenario a 0x1000)
            [0x4000; 0x5000; 0x6000].
Proof.
  destruct (find_hidden_blocks_appends_free_candidates Fixture.scenario 8
              Fixture.mapped
              (outcome_state
                 (fst (find_hidden_blocks Fixture.scenario 8 Fixture.mapped)))
              [0x4000; 0x5000; 0x6000]) as (Hblocks & _).
  - vm_compute. reflexivity.
  - exact Hblocks.
Defined.

Section SafeScan.

Variable e : env.
Hypothesis block_sz_pos : 0 < block_sz e.

(** On a safe range the questions of the inner loop go up by whole
    blocks. *)
Lemma scan_range_queries_apart (fuel : nat) (rend : Z) :
  rend + block_sz e <= U64_MODULUS ->
  forall start st,
    0 <= start -> start + block_sz e < U64_MODULUS ->
    blocks_apart (block_sz e) (snd (scan_range e fuel rend start st)).
Proof.
  intros Hend. unfold blocks_apart.
  induction fuel as [|fuel IH]; intros start st H0 Hfit;
    cbn [scan_range]; [constructor|].
  rewrite wrap64_small by (unfold is_u64; lia).
  destruct (Z.ltb_spec (start + block_sz e) rend) as [Hlt|Hge];
    [|constructor].
  assert (Hrest : forall st1,
             StronglySorted (fun a b => a + block_sz e <= b)
               (start :: snd (scan_range e fuel rend (start + block_sz e) st1))).
  { intros st1. constructor; [apply IH; lia|].
    eapply Forall_impl;
      [|apply (scan_range_queries_inside e block_sz_pos fuel rend Hend
                 (start + block_sz e) st1); lia].
    intros q (Hq & _). exact Hq. }
  destruct (region_disjoint e start (block_sz e)); cbn [negb].
  - destruct (hidden_block_add e start st) as [rc st1].
    destruct (negb (rc =? 0)); cbn [snd].
    + repeat constructor.
    + specialize (Hrest st1).
      now destruct (scan_range e fuel rend (start + block_sz e) st1).
  - specialize (Hrest st).
    now destruct (scan_range e fuel rend (start + block_sz e) st).
Qed.

(** The whole scan of a map of safe ranges, with a power-of-two block
    size and fuel beyond the highest range end: it does not run out of
    fuel, every address it asks about is block-aligned and has its block
    inside a range of the map, and on a map of separated ranges the
    addresses go up by whole blocks. *)
Lemma scan_ranges_safe_queries (k : Z) (fuel : nat) (rs : list range) :
  0 <= k < 64 -> block_sz e = 2 ^ k ->
  Forall (safe_range e) rs ->
  Forall (fun r => (Z.to_nat (r_end r) < fuel)%nat) rs ->
  forall st,
    (forall st', fst (scan_ranges e fuel rs st) <> LoopFuel st') /\
    Forall (fun q => (block_sz e | q) /\
                     exists r, In r rs /\
                       r_start r <= q /\ q + block_sz e - 1 <= r_end r)
      (snd (scan_ranges e fuel rs st)) /\
    (separated rs ->
     blocks_apart (block_sz e) (snd (scan_ranges e fuel rs st))).
Proof.
  intros Hk Hbs Hsafe Hfuel.
  induction rs as [|r rest IH]; intros st; cbn [scan_ranges].
  - split; [discriminate|]. split; [constructor|]. intros _. constructor.
  - inversion Hsafe as [|? ? (Hs0 & Hend & Hstart) Hsafe']; subst.
    inversion Hfuel as [|? ? Hf Hfuel']; subst.
    assert (Halign : ALIGN (r_start r) (block_sz e)
                     = round_up (r_start r) (block_sz e)).
    { rewrite Hbs. apply ALIGN_pow2; [exact Hk | exact Hs0 | lia]. }
    rewrite Halign.
    pose proof (round_up_bounds (r_start r) (block_sz e) block_sz_pos) as Hru.
    assert (Hdiv : (block_sz e | round_up (r_start r) (block_sz e)))
      by (unfold round_up; apply Z.divide_factor_r).
    pose proof (scan_range_queries_inside e block_sz_pos fuel (r_end r) Hend
                  (round_up (r_start r) (block_sz e)) st
                  ltac:(lia) ltac:(lia)) as Hq.
    pose proof (scan_range_queries_apart fuel (r_end r) Hend
                  (round_up (r_start r) (block_sz e)) st
                  ltac:(lia) ltac:(lia)) as Ha.
    pose proof (scan_range_terminates e block_sz_pos fuel (r_end r) Hend
                  (round_up (r_start r) (block_sz e)) st
                  ltac:(lia) ltac:(lia) ltac:(lia)) as Ht.
    assert (Hq' : Forall (fun q => (block_sz e | q) /\
                            exists r0, In r0 (r :: rest) /\
                              r_start r0 <= q /\
                              q + block_sz e - 1 <= r_end r0)
                    (snd (scan_range e fuel (r_end r)
                            (round_up (r_start r) (block_sz e)) st))).
    { eapply Forall_impl; [|exact Hq]. intros q (H1 & H2 & H3). split.
      - replace q with ((q - round_up (r_start r) (block_sz e))
                        + round_up (r_start r) (block_sz e)) by lia.
        now apply Z.divide_add_r.
      - exists r. split; [now left | lia]. }
    destruct (scan_range e fuel (r_end r)
                (round_up (r_start r) (block_sz e)) st)
      as [[st1|rc st1|st1] qs]; cbn [fst snd] in *.
    + destruct (IH Hsafe' Hfuel' st1) as (Hnf & Hin & Hapart).
      destruct (scan_ranges e fuel rest st1) as [res qs'].
      cbn [fst snd] in *. split; [exact Hnf|]. split.
      * apply Forall_app. split; [exact Hq'|].
        eapply Forall_impl; [|exact Hin]. intros q (Hd & r0 & Hr0 & Hb).
        split; [exact Hd|]. exists r0. split; [now right | exact Hb].
      * intros Hsep. inversion Hsep as [|? ? Hsep' Hgap]; subst.
        apply StronglySorted_app; [exact Ha | now apply Hapart |].
        intros a b Hina Hinb.
        rewrite Forall_forall in Hq, Hin, Hgap.
        destruct (Hq a Hina) as (_ & Ha2 & _).
        destruct (Hin b Hinb) as (_ & r0 & Hr0 & Hb1 & _).
        specialize (Hgap r0 Hr0). lia.
    + split; [discriminate|]. split; [exact Hq'|]. intros _. exact Ha.
    + exfalso. now apply (Ht st1).
Qed.

End SafeScan.

(** X10. On a range map whose ranges stay two blocks clear of the end of
    the address space, with a power-of-two block size, the scan started
    on an empty list returns, given fuel beyond the highest range end,
    with 0 or [-ENOMEM], and every hidden block it leaves is
    block-aligned, was reported free by the resource tracker, and lies
    whole inside a range of the map. *)
Theorem find_hidden_blocks_sound_on_safe_ranges
  (e : env) (k : Z) (fuel : nat) (st : state) :
  0 <= k < 64 -> block_sz e = 2 ^ k ->
  Forall (safe_range e) (ranges st) ->
  Forall (fun r => (Z.to_nat (r_end r) < fuel)%nat) (ranges st) ->
  hidden_blocks st = [] ->
  exists rc st',
    fst (find_hidden_blocks e fuel st) = Returned rc st' /\
    (rc = 0 \/ rc = - ENOMEM) /\
    Forall (sound_block e (ranges st)) (hidden_blocks st').
Proof.
  intros Hk Hbs Hsafe Hfuel Hempty.
  assert (Hpos : 0 < block_sz e)
    by (rewrite Hbs; apply Z.pow_pos_nonneg; lia).
  destruct (scan_ranges_safe_queries e Hpos k fuel (ranges st) Hk Hbs
              Hsafe Hfuel st) as (Hnf & Hq & _).
  pose proof (scan_ranges_appends_free e fuel (ranges st) st) as Hblocks.
  pose proof (scan_ranges_frame e fuel (ranges st) st) as Hframe.
  unfold find_hidden_blocks.
  destruct (scan_ranges e fuel (ranges st) st) as [[st1|rc st1|st1] qs];
    cbn [fst snd loop_state] in *.
  - exists 0, st1. split; [reflexivity|]. split; [now left|].
    rewrite Hblocks, Hempty. cbn [app].
    apply Forall_forall. intros b Hb. apply filter_In in Hb.
    destruct Hb as [Hb Hfree]. rewrite Forall_forall in Hq.
    destruct (Hq b Hb) as [Hd Hin]. now repeat split.
  - destruct Hframe as (_ & _ & _ & _ & -> & _).
    exists (- ENOMEM), (hidden_blocks_purge st1).
    split; [reflexivity|]. split; [now right|].
    destruct (hidden_blocks_purge_spec st1) as (-> & _). constructor.
  - exfalso. now apply (Hnf st1).
Qed.

(** X10, at the small platform: the blocks found are 0x10 and 0x20 in
    the first range and 0x90 and 0xa0 in the second. *)
Lemma find_hidden_blocks_sound_on_safe_ranges_witness :
  exists rc st',
    fst (find_hidden_blocks small_platform 200 small_mapped)
      = Returned rc st' /\
    (rc = 0 \/ rc = - ENOMEM) /\
    Forall (sound_block small_platform (ranges small_mapped))
      (hidden_blocks st').
Proof.
  apply (find_hidden_blocks_sound_on_safe_ranges small_platform 4 200
           small_mapped).
  - lia.
  - reflexivity.
  - repeat constructor; vm_compute; discriminate.
  - repeat constructor; vm_compute; lia.
  - reflexivity.
Defined.

(** X11. If moreover the ranges of the map are in ascending order and do
    not touch, the hidden blocks the scan leaves are in ascending order
    and at least a block apart: no two of them overlap, and none occurs
    twice. *)
Theorem find_hidden_blocks_never_overlap
  (e : env) (k : Z) (fuel : nat) (st : state) :
  0 <= k < 64 -> block_sz e = 2 ^ k ->
  Forall (safe_range e) (ranges st) ->
  Forall (fun r => (Z.to_nat (r_end r) < fuel)%nat) (ranges st) ->
  separated (ranges st) ->
  hidden_blocks st = [] ->
  blocks_apart (block_sz e)
    (hidden_blocks (outcome_state (fst (find_hidden_blocks e fuel st)))) /\
  NoDup (hidden_blocks (outcome_state (fst (find_hidden_blocks e fuel st)))).
Proof.
  intros Hk Hbs Hsafe Hfuel Hsep Hempty.
  assert (Hpos : 0 < block_sz e)
    by (rewrite Hbs; apply Z.pow_pos_nonneg; lia).
  assert (Hapart : blocks_apart (block_sz e)
            (hidden_blocks
               (outcome_state (fst (find_hidden_blocks e fuel st))))).
  { destruct (scan_ranges_safe_queries e Hpos k fuel (ranges st) Hk Hbs
                Hsafe Hfuel st) as (Hnf & _ & Ha).
    specialize (Ha Hsep).
    pose proof (scan_ranges_appends_free e fuel (ranges st) st) as Hblocks.
    unfold find_hidden_blocks.
    destruct (scan_ranges e fuel (ranges st) st) as [[st1|rc st1|st1] qs];
      cbn [fst snd loop_state outcome_state] in *.
    - rewrite Hblocks, Hempty. cbn [app]. now apply StronglySorted_filter.
    - destruct (hidden_blocks_purge_spec st1) as (-> & _). constructor.
    - exfalso. now apply (Hnf st1). }
  split; [exact Hapart|].
  induction Hapart as [|b l Hs IH Hall]; constructor; [|exact IH].
  intros Hin. rewrite Forall_forall in Hall. specialize (Hall b Hin). lia.
Qed.

(** X11, at the small platform. *)
Lemma find_hidden_blocks_never_overlap_witness :
  hidden_blocks
    (outcome_state (fst (find_hidden_blocks small_platform 200 small_mapped)))
    = [0x10; 0x20; 0x90; 0xa0] /\
  blocks_apart 0x10
    (hidden_blocks
       (outcome_state
          (fst (find_hidden_blocks small_platform 200 small_mapped)))) /\
  NoDup
    (hidden_blocks
       (outcome_state
          (fst (find_hidden_blocks small_platform 200 small_mapped)))).
Proof.
  split; [vm_compute; reflexivity|].
  apply (find_hidden_blocks_never_overlap small_platform 4 200 small_mapped).
  - lia.
  - reflexivity.
  - repeat constructor; vm_compute; discriminate.
  - repeat constructor; vm_compute; lia.
  - repeat constructor.
  - reflexivity.
Defined.

(** ** More on the range map builders *)

Section BuilderAllocations.

Variable e : env.

Lemma allocs_ok_window_cons (from n : nat) :
  allocs_ok_window e from (S n) <->
  alloc_ok e from = true /\ allocs_ok_window e (S from) n.
Proof.
  unfold allocs_ok_window. split.
  - intros H. split; [apply H; lia|]. intros k Hk. apply H. lia.
  - intros [H0 H] k Hk. destruct (Nat.eq_dec k from) as [->|Hne];
      [exact H0 | apply H; lia].
Qed.

(** The entry loop returns 0 exactly when the allocator calls it makes,
    one per entry, all succeed. *)
Lemma add_entries_ok_iff (entries : list (Z * Z)) :
  forall st,
    fst (add_entries e entries st) = 0 <->
    allocs_ok_window e (n_alloc st) (List.length entries).
Proof.
  induction entries as [|[base size] rest IH]; intros st.
  - cbn. split; [|reflexivity]. intros _ k Hk. lia.
  - cbn [add_entries List.length]. rewrite allocs_ok_window_cons.
    destruct (ram_map_add_spec e base size st) as (Hn & _ & _ & _ & Hcase).
    destruct (ram_map_add e base size st) as [rc st1]. cbn [fst snd] in *.
    destruct Hcase as [(Hok & -> & _) | (Hko & -> & _)].
    + cbn [Z.eqb negb]. rewrite IH, Hn. split; [now split | now intros [_ H]].
    + cbn. split; [discriminate|]. intros [H _]. congruence.
Qed.

Lemma add_entries_frame (entries : list (Z * Z)) (st : state) :
  hidden_blocks (snd (add_entries e entries st)) = hidden_blocks st /\
  hidden_blocks_cnt (snd (add_entries e entries st)) = hidden_blocks_cnt st /\
  unloadable (snd (add_entries e entries st)) = unloadable st /\
  (fst (add_entries e entries st) = 0 \/
   fst (add_entries e entries st) = - ENOMEM).
Proof.
  destruct (add_entries_spec e entries st) as (_ & H1 & H2 & H3 & Hcase).
  repeat split; auto. destruct Hcase as [(-> & _) | (-> & _)]; auto.
Qed.

End BuilderAllocations.

(** X12. A build of the range map makes one allocator call per entry the
    provider reports, and succeeds exactly when all of them do: the EFI
    build (with the memory map enabled) returns 0 if and only if the next
    allocator calls, as many as there are conventional-memory
    descriptors, succeed, and the device-tree build if and only if as
    many as there are [reg] pairs do. Descriptors of other types cost no
    call. *)
Theorem range_map_build_succeeds_iff_allocations_do (e : env) (st : state) :
  (efi_memmap_enabled e = true ->
   (fst (ram_map_from_efi e st) = 0 <->
    allocs_ok_window e (n_alloc st) (List.length (efi_entries e)))) /\
  (fst (ram_map_from_fdt e st) = 0 <->
   allocs_ok_window e (n_alloc st) (List.length (fdt_entries e))).
Proof.
  split.
  - intros Hen. unfold ram_map_from_efi. rewrite Hen. cbn [negb].
    rewrite efi_loop_entries.
    rewrite <- (add_entries_ok_iff e (conventional_entries (efi_memmap e)) st).
    destruct (add_entries e (conventional_entries (efi_memmap e)) st)
      as [rc st1]. cbn [fst].
    destruct (Z.eqb_spec rc 0) as [->|Hne]; cbn [negb fst]; [tauto|].
    tauto.
  - unfold ram_map_from_fdt. rewrite fdt_node_loop_entries.
    rewrite <- (add_entries_ok_iff e (List.concat (of_memory_nodes e)) st).
    destruct (add_entries e (List.concat (of_memory_nodes e)) st)
      as [rc st1]. cbn [fst].
    destruct (Z.eqb_spec rc 0) as [->|Hne]; cbn [negb fst]; tauto.
Qed.

(** X12, at the scenario: three descriptors, two of them conventional
    memory, two calls. *)
Lemma range_map_build_succeeds_iff_allocations_do_witness :
  (fst (ram_map_from_efi Fixture.scenario initial_state) = 0 <->
   allocs_ok_window Fixture.scenario 0 2) /\
  (fst (ram_map_from_efi Fixture.second_alloc_fails initial_state) = 0 <->
   allocs_ok_window Fixture.second_alloc_fails 0 2).
Proof.
  destruct (range_map_build_succeeds_iff_allocations_do Fixture.scenario
              initial_state) as [Hok _].
  destruct (range_map_build_succeeds_iff_allocations_do
              Fixture.second_alloc_fails initial_state) as [Hfail _].
  split; [apply Hok | apply Hfail]; reflexivity.
Defined.

(** X13. The builders return 0, [-ENOMEM] or, for the EFI build only,
    [-EINVAL]; [-EINVAL] means exactly that the EFI memory map is not
    enabled, and then nothing was done. Neither builder touches the
    hidden block list, its counter or [unloadable]. *)
Theorem range_map_build_return_codes (e : env) (st : state) :
  (fst (ram_map_from_efi e st) = - EINVAL <-> efi_memmap_enabled e = false) /\
  (efi_memmap_enabled e = false -> snd (ram_map_from_efi e st) = st) /\
  (fst (ram_map_from_efi e st) = 0 \/
   fst (ram_map_from_efi e st) = - ENOMEM \/
   fst (ram_map_from_efi e st) = - EINVAL) /\
  (fst (ram_map_from_fdt e st) = 0 \/
   fst (ram_map_from_fdt e st) = - ENOMEM) /\
  (hidden_blocks (snd (ram_map_from_efi e st)) = hidden_blocks st /\
   hidden_blocks_cnt (snd (ram_map_from_efi e st)) = hidden_blocks_cnt st /\
   unloadable (snd (ram_map_from_efi e st)) = unloadable st) /\
  (hidden_blocks (snd (ram_map_from_fdt e st)) = hidden_blocks st /\
   hidden_blocks_cnt (snd (ram_map_from_fdt e st)) = hidden_blocks_cnt st /\
   unloadable (snd (ram_map_from_fdt e st)) = unloadable st).
Proof.
  assert (Hefi :
    efi_memmap_enabled e = true ->
    (fst (ram_map_from_efi e st) = 0 \/
     fst (ram_map_from_efi e st) = - ENOMEM) /\
    hidden_blocks (snd (ram_map_from_efi e st)) = hidden_blocks st /\
    hidden_blocks_cnt (snd (ram_map_from_efi e st)) = hidden_blocks_cnt st /\
    unloadable (snd (ram_map_from_efi e st)) = unloadable st).
  { intros Hen. unfold ram_map_from_efi. rewrite Hen. cbn [negb].
    rewrite efi_loop_entries.
    destruct (add_entries_frame e (conventional_entries (efi_memmap e)) st)
      as (H1 & H2 & H3 & Hrc).
    destruct (add_entries e (conventional_entries (efi_memmap e)) st)
      as [rc st1]. cbn [fst snd] in *.
    destruct Hrc as [-> | ->]; cbn; auto. }
  assert (Hfdt :
    (fst (ram_map_from_fdt e st) = 0 \/
     fst (ram_map_from_fdt e st) = - ENOMEM) /\
    hidden_blocks (snd (ram_map_from_fdt e st)) = hidden_blocks st /\
    hidden_blocks_cnt (snd (ram_map_from_fdt e st)) = hidden_blocks_cnt st /\
    unloadable (snd (ram_map_from_fdt e st)) = unloadable st).
  { unfold ram_map_from_fdt. rewrite fdt_node_loop_entries.
    destruct (add_entries_frame e (List.concat (of_memory_nodes e)) st)
      as (H1 & H2 & H3 & Hrc).
    destruct (add_entries e (List.concat (of_memory_nodes e)) st)
      as [rc st1]. cbn [fst snd] in *.
    destruct Hrc as [-> | ->]; cbn; auto. }
  destruct Hfdt as (Hfrc & Hfframe).
  destruct (efi_memmap_enabled e) eqn:Hen.
  - destruct (Hefi eq_refl) as (Hrc & Hframe).
    split; [|split; [|split; [|split; [|split]]]].
    + split; [|discriminate].
      intros Hinv. destruct Hrc as [H | H]; rewrite H in Hinv; discriminate.
    + discriminate.
    + destruct Hrc; auto.
    + exact Hfrc.
    + exact Hframe.
    + exact Hfframe.
  - split; [|split; [|split; [|split; [|split]]]];
      try exact Hfrc; try exact Hfframe;
      unfold ram_map_from_efi; rewrite Hen; cbn [negb fst snd];
      [split; reflexivity | reflexivity | right; right; reflexivity
      | repeat split].
Qed.

(** X14. [cmp_range] is a three-way comparison of the starts of two
    ranges, whatever their ends: -1, 0 or 1 as the first start is below,
    equal to or above the second, with the sign flipping when the
    arguments are swapped, and consistent along chains. These are the
    laws [sort] needs of its comparison function. *)
Theorem cmp_range_three_way (a b c : range) :
  (cmp_range a b = -1 <-> r_start a < r_start b) /\
  (cmp_range a b = 0 <-> r_start a = r_start b) /\
  (cmp_range a b = 1 <-> r_start b < r_start a) /\
  cmp_range b a = - cmp_range a b /\
  (cmp_range a b <= 0 -> cmp_range b c <= 0 -> cmp_range a c <= 0) /\
  (cmp_range a b = 0 -> cmp_range a c = cmp_range b c).
Proof.
  unfold cmp_range.
  destruct (Z.ltb_spec (r_start a) (r_start b));
    destruct (Z.gtb_spec (r_start a) (r_start b));
    destruct (Z.ltb_spec (r_start b) (r_start a));
    destruct (Z.gtb_spec (r_start b) (r_start a));
    destruct (Z.ltb_spec (r_start b) (r_start c));
    destruct (Z.gtb_spec (r_start b) (r_start c));
    destruct (Z.ltb_spec (r_start a) (r_start c));
    destruct (Z.gtb_spec (r_start a) (r_start c));
    repeat split; intros; try lia.
Qed.

(** X15. The length [ranges_show] prints for the range of a provider
    entry is the size the provider gave, also when [base + size] wraps:
    [range_len] undoes the [base + size - 1] of [ram_map_add] on 64 bits.
    An entry of size 0 becomes a range that ends one byte before its
    start and prints length 0. *)
Theorem range_len_of_entry_is_size (base size : Z) :
  range_len (entry_range (base, size)) = wrap64 size /\
  (is_u64 size ->
   range_line (entry_range (base, size))
     = fmt_line base (wrap64 (base + size - 1)) size) /\
  entry_range (base, 0) = mk_range base (wrap64 (base - 1)).
Proof.
  assert (Hlen : range_len (entry_range (base, size)) = wrap64 size).
  { unfold range_len, entry_range, wrap64. cbn [fst snd r_start r_end].
    replace ((base + size - 1) mod U64_MODULUS - base + 1)
      with ((base + size - 1) mod U64_MODULUS + (1 - base)) by lia.
    rewrite Zplus_mod_idemp_l. f_equal. lia. }
  split; [exact Hlen|]. split.
  - intros Hu. unfold range_line. rewrite Hlen, (wrap64_small _ Hu).
    reflexivity.
  - unfold entry_range. cbn [fst snd]. do 2 f_equal. lia.
Qed.

(** X15, for the second range of the scenario. *)
Lemma range_len_of_entry_is_size_witness :
  range_line (entry_range (0x4000, 0x4000))
    = fmt_line 0x4000 0x7FFF 0x4000.
Proof.
  destruct (range_len_of_entry_is_size 0x4000 0x4000) as (_ & Hline & _).
  rewrite Hline; [reflexivity|].
  unfold is_u64. vm_compute. split; [discriminate | reflexivity].
Defined.

(** ** More on the purge *)

Lemma wrap32_range (z : Z) : 0 <= wrap32 z < 2 ^ 32.
Proof. unfold wrap32. apply Z.mod_pos_bound. reflexivity. Qed.

Lemma purge_loop_counter (rounds : nat) :
  forall st,
    0 <= hidden_blocks_cnt st < 2 ^ 32 ->
    (List.length (hidden_blocks st) <= rounds)%nat ->
    hidden_blocks_cnt (purge_loop rounds st)
      = wrap32 (hidden_blocks_cnt st
                - Z.of_nat (List.length (hidden_blocks st))).
Proof.
  induction rounds as [|rounds IH]; intros st Hcnt Hlen; cbn [purge_loop].
  - destruct (hidden_blocks st); [|simpl in Hlen; lia].
    cbn [List.length Z.of_nat]. rewrite Z.sub_0_r.
    unfold wrap32. now rewrite Z.mod_small.
  - destruct (hidden_blocks st) as [|b rest] eqn:Hbl.
    + cbn [List.length Z.of_nat]. rewrite Z.sub_0_r.
      unfold wrap32. now rewrite Z.mod_small.
    + rewrite IH.
      * unfold hidden_block_free, list_del.
        cbn [hidden_blocks hidden_blocks_cnt set_hidden_blocks
             set_hidden_blocks_cnt].
        rewrite Hbl. cbn [firstn skipn app List.length].
        rewrite Nat2Z.inj_succ.
        unfold wrap32. rewrite Zminus_mod_idemp_l. f_equal. lia.
      * unfold hidden_block_free. cbn. apply wrap32_range.
      * unfold hidden_block_free, list_del. cbn. rewrite Hbl.
        simpl in *. lia.
Qed.

(** X16. [hidden_blocks_purge] empties the list whatever it holds and
    touches nothing but the list and its counter; the counter, an
    [unsigned int], comes out at 0, so that the [WARN_ON] at the end of
    the purge stays silent, exactly when it agreed with the length of the
    list going in. *)
Theorem hidden_blocks_purge_counter_zero_iff_agreed (st : state) :
  0 <= hidden_blocks_cnt st < 2 ^ 32 ->
  hidden_blocks (hidden_blocks_purge st) = [] /\
  (hidden_blocks_cnt (hidden_blocks_purge st) = 0 <-> cnt_inv st) /\
  ranges (hidden_blocks_purge st) = ranges st /\
  unloadable (hidden_blocks_purge st) = unloadable st.
Proof.
  intros Hcnt.
  destruct (purge_loop_empties (List.length (hidden_blocks st)) st
              (Nat.le_refl _)) as (He & Hu & Hr & _ & _).
  pose proof (purge_loop_counter (List.length (hidden_blocks st)) st Hcnt
                (Nat.le_refl _)) as Hc.
  unfold hidden_blocks_purge. repeat split; auto.
  - rewrite Hc. unfold cnt_inv, wrap32. intros H0.
    change (2 ^ 32) with 4294967296 in *.
    Z.div_mod_to_equations. lia.
  - rewrite Hc. unfold cnt_inv, wrap32. intros H0.
    change (2 ^ 32) with 4294967296 in *.
    Z.div_mod_to_equations. lia.
Qed.

(** X16, after the scavenge call that left the counter behind: a purge
    then ends with a counter that is not 0. *)
Lemma hidden_blocks_purge_counter_zero_iff_agreed_witness :
  let st :=
    snd (fst (scavenge_store Fixture.scenario "0x1000" 6
                (Fixture.holding Fixture.four_blocks))) in
  hidden_blocks (hidden_blocks_purge st) = [] /\
  hidden_blocks_cnt (hidden_blocks_purge st) <> 0.
Proof.
  cbv zeta.
  destruct (hidden_blocks_purge_counter_zero_iff_agreed
              (snd (fst (scavenge_store Fixture.scenario "0x1000" 6
                           (Fixture.holding Fixture.four_blocks)))))
    as (Hempty & Hiff & _).
  - vm_compute. split; [discriminate | reflexivity].
  - split; [exact Hempty|]. intros H0. apply Hiff in H0.
    vm_compute in H0. discriminate.
Defined.

(** ** The module entry point *)

Lemma ram_map_free_frame (st : state) :
  ranges (ram_map_free st) = [] /\
  hidden_blocks (ram_map_free st) = hidden_blocks st /\
  hidden_blocks_cnt (ram_map_free st) = hidden_blocks_cnt st /\
  unloadable (ram_map_free st) = unloadable st.
Proof. repeat split. Qed.

(** The builders, as far as the rest of the globals goes. *)
Lemma ram_map_from_efi_frame (e : env) (st : state) :
  hidden_blocks (snd (ram_map_from_efi e st)) = hidden_blocks st /\
  hidden_blocks_cnt (snd (ram_map_from_efi e st)) = hidden_blocks_cnt st /\
  unloadable (snd (ram_map_from_efi e st)) = unloadable st.
Proof.
  unfold ram_map_from_efi. destruct (efi_memmap_enabled e); cbn [negb];
    [|repeat split].
  rewrite efi_loop_entries.
  destruct (add_entries_frame e (conventional_entries (efi_memmap e)) st)
    as (H1 & H2 & H3 & _).
  destruct (add_entries e (conventional_entries (efi_memmap e)) st)
    as [rc st1]. cbn [fst snd] in *.
  destruct (negb (rc =? 0)); cbn; auto.
Qed.

Lemma ram_map_from_fdt_frame (e : env) (st : state) :
  hidden_blocks (snd (ram_map_from_fdt e st)) = hidden_blocks st /\
  hidden_blocks_cnt (snd (ram_map_from_fdt e st)) = hidden_blocks_cnt st /\
  unloadable (snd (ram_map_from_fdt e st)) = unloadable st.
Proof.
  unfold ram_map_from_fdt. rewrite fdt_node_loop_entries.
  destruct (add_entries_frame e (List.concat (of_memory_nodes e)) st)
    as (H1 & H2 & H3 & _).
  destruct (add_entries e (List.concat (of_memory_nodes e)) st)
    as [rc st1]. cbn [fst snd] in *.
  destruct (negb (rc =? 0)); cbn; auto.
Qed.

(** X17. When [memscav_init], started without a range map, returns an
    error, no range map is left and [unloadable] is as it was; if the
    error is not that of [sysfs_create_group] and the hidden block list
    was empty, the list is empty again. A failure to create the kobject
    returns [-ENOMEM] before anything else is done. *)
Theorem memscav_init_failure_leaves_no_map
  (e : env) (config_of kobj_ok : bool) (sysfs_rc : Z) (fuel : nat)
  (st st' : state) (rc : Z) :
  ranges st = [] ->
  memscav_init e config_of kobj_ok sysfs_rc fuel st = Returned rc st' ->
  rc <> 0 ->
  ranges st' = [] /\
  unloadable st' = unloadable st /\
  (hidden_blocks st = [] -> sysfs_rc = 0 -> hidden_blocks st' = []) /\
  (kobj_ok = false -> rc = - ENOMEM /\ st' = st).
Proof.
  intros Hempty Hrun Hrc. unfold memscav_init in Hrun.
  destruct kobj_ok; cbn [negb] in Hrun.
  2: { inversion Hrun; subst. repeat split; auto. }
  assert (Hk : true = false -> rc = - ENOMEM /\ st' = st) by discriminate.
  set (r1 := if efi_memmap_enabled e then ram_map_from_efi e st else (0, st))
    in Hrun.
  assert (H1 : hidden_blocks (snd r1) = hidden_blocks st /\
               unloadable (snd r1) = unloadable st).
  { subst r1. destruct (efi_memmap_enabled e); [|split; reflexivity].
    now destruct (ram_map_from_efi_frame e st) as (? & _ & ?). }
  destruct r1 as [rc1 st1]. cbn [snd] in H1. destruct H1 as [Hh1 Hu1].
  destruct (negb (rc1 =? 0)).
  { inversion Hrun; subst. repeat split; cbn; intros; congruence. }
  set (r2 := if config_of && negb (efi_memmap_enabled e)
             then ram_map_from_fdt e st1 else (0, st1)) in Hrun.
  assert (H2 : hidden_blocks (snd r2) = hidden_blocks st /\
               unloadable (snd r2) = unloadable st).
  { subst r2. destruct (config_of && negb (efi_memmap_enabled e));
      [|split; assumption].
    destruct (ram_map_from_fdt_frame e st1) as (? & _ & ?).
    split; congruence. }
  destruct r2 as [rc2 st2]. cbn [snd] in H2. destruct H2 as [Hh2 Hu2].
  destruct (negb (rc2 =? 0)).
  { inversion Hrun; subst. repeat split; cbn; intros; congruence. }
  destruct (find_hidden_blocks_frame e fuel st2) as (_ & Hu3 & _ & Hres).
  destruct (fst (find_hidden_blocks e fuel st2)) as [rc3 st3|st3];
    [|discriminate].
  cbn [outcome_state] in *.
  destruct (Z.eqb_spec rc3 0) as [->|Hne3]; cbn [negb] in Hrun.
  - destruct (Z.eqb_spec sysfs_rc 0) as [H0|Hne]; cbn [negb] in Hrun.
    + inversion Hrun; subst. contradiction.
    + inversion Hrun; subst.
      repeat split; cbn; intros; try congruence; contradiction.
  - inversion Hrun; subst.
    destruct Hres as [(H0 & _) | (_ & _ & Hnil)]; [contradiction|].
    repeat split; cbn; intros; congruence.
Qed.

(** X17, at the scenario with the second allocation failing: the EFI
    build fails and initialisation returns [-ENOMEM]. *)
Lemma memscav_init_failure_leaves_no_map_witness :
  exists st',
    memscav_init Fixture.second_alloc_fails true true 0 8 initial_state
      = Returned (- ENOMEM) st' /\
    ranges st' = [] /\
    unloadable st' = true /\
    hidden_blocks st' = [].
Proof.
  exists (outcome_state
            (memscav_init Fixture.second_alloc_fails true true 0 8
               initial_state)).
  assert (Hrun : memscav_init Fixture.second_alloc_fails true true 0 8
                   initial_state
                 = Returned (- ENOMEM)
                     (outcome_state
                        (memscav_init Fixture.second_alloc_fails true true 0 8
                           initial_state)))
    by (vm_compute; reflexivity).
  destruct (memscav_init_failure_leaves_no_map Fixture.second_alloc_fails
              true true 0 8 initial_state _ (- ENOMEM) eq_refl Hrun)
    as (Hr & Hu & Hh & _); [discriminate|].
  split; [exact Hrun|]. split; [exact Hr|]. split; [exact Hu|].
  now apply Hh.
Defined.

(** The two provider steps of [memscav_init] when both return 0. *)
Lemma init_build_stage (e : env) (config_of : bool) (st : state) :
  sort_contract e ->
  ranges st = [] ->
  forall rc1 st1 rc2 st2,
    (if efi_memmap_enabled e then ram_map_from_efi e st else (0, st))
      = (rc1, st1) ->
    rc1 = 0 ->
    (if config_of && negb (efi_memmap_enabled e)
     then ram_map_from_fdt e st1 else (0, st1)) = (rc2, st2) ->
    rc2 = 0 ->
    built_from (init_entries e config_of) (ranges st2) /\
    hidden_blocks st2 = hidden_blocks st /\
    hidden_blocks_cnt st2 = hidden_blocks_cnt st /\
    unloadable st2 = unloadable st.
Proof.
  intros Hsort Hempty rc1 st1 rc2 st2 H1 Hrc1 H2 Hrc2. unfold init_entries.
  destruct (efi_memmap_enabled e).
  - rewrite andb_false_r in H2. inversion H2; subst rc2 st2.
    destruct (ram_map_from_efi_frame e st) as (Hh & Hc & Hu).
    rewrite H1 in Hh, Hc, Hu. cbn [snd] in *.
    rewrite (ram_map_from_efi_result e st st1 rc1 Hempty H1 Hrc1).
    split; [now apply sorted_entries_built | auto].
  - inversion H1; subst rc1 st1. rewrite andb_true_r in H2.
    destruct config_of.
    + destruct (ram_map_from_fdt_frame e st) as (Hh & Hc & Hu).
      rewrite H2 in Hh, Hc, Hu. cbn [snd] in *.
      rewrite (ram_map_from_fdt_result e st st2 rc2 Hempty H2 Hrc2).
      split; [now apply sorted_entries_built | auto].
    + inversion H2; subst. rewrite Hempty.
      split; [repeat split; constructor | auto].
Qed.

(** X18. When [memscav_init], started without a range map, returns 0,
    the range map is the sorted image of the entries of one provider:
    the EFI memory map if it is enabled, otherwise the device tree if
    the driver is built with [CONFIG_OF], otherwise nothing. The kobject
    and the sysfs group were created, [unloadable] is as it was, and the
    counter agrees with the hidden block list if it did. *)
Theorem memscav_init_success_state
  (e : env) (config_of kobj_ok : bool) (sysfs_rc : Z) (fuel : nat)
  (st st' : state) :
  sort_contract e ->
  ranges st = [] ->
  memscav_init e config_of kobj_ok sysfs_rc fuel st = Returned 0 st' ->
  built_from (init_entries e config_of) (ranges st') /\
  kobj_ok = true /\ sysfs_rc = 0 /\
  unloadable st' = unloadable st /\
  (cnt_inv st -> cnt_inv st').
Proof.
  intros Hsort Hempty Hrun. unfold memscav_init in Hrun.
  destruct kobj_ok; cbn [negb] in Hrun; [|inversion Hrun; discriminate].
  pose proof (init_build_stage e config_of st Hsort Hempty) as Hstage.
  destruct (if efi_memmap_enabled e then ram_map_from_efi e st else (0, st))
    as [rc1 st1].
  destruct (Z.eqb_spec rc1 0) as [->|Hne1]; cbn [negb] in Hrun;
    [|inversion Hrun; subst; contradiction].
  specialize (Hstage 0 st1).
  destruct (if config_of && negb (efi_memmap_enabled e)
            then ram_map_from_fdt e st1 else (0, st1)) as [rc2 st2].
  destruct (Z.eqb_spec rc2 0) as [->|Hne2]; cbn [negb] in Hrun;
    [|inversion Hrun; subst; contradiction].
  destruct (Hstage 0 st2 eq_refl eq_refl eq_refl eq_refl)
    as (Hbuilt & Hh2 & Hc2 & Hu2).
  destruct (find_hidden_blocks_frame e fuel st2) as (Hr3 & Hu3 & Hc3 & _).
  destruct (fst (find_hidden_blocks e fuel st2)) as [rc3 st3|st3];
    [|discriminate].
  cbn [outcome_state] in *.
  destruct (Z.eqb_spec rc3 0) as [->|Hne3]; cbn [negb] in Hrun;
    [|inversion Hrun; subst; contradiction].
  destruct (Z.eqb_spec sysfs_rc 0) as [->|Hnes]; cbn [negb] in Hrun;
    [|inversion Hrun; subst; contradiction].
  inversion Hrun; subst st3.
  split; [now rewrite Hr3|]. split; [reflexivity|]. split; [reflexivity|].
  split; [congruence|].
  intros Hinv. apply Hc3. unfold cnt_inv in *. now rewrite Hh2, Hc2.
Qed.

(** X18, on the scenario with the EFI memory map and, without it, with
    the device tree: the same two ranges either way, and the three
    hidden blocks. *)
Lemma memscav_init_success_state_witness :
  (exists st',
     memscav_init Fixture.scenario true true 0 8 initial_state
       = Returned 0 st' /\
     built_from (efi_entries Fixture.scenario) (ranges st') /\
     ranges st' = Fixture.scenario_ranges /\
     hidden_blocks st' = [0x4000; 0x5000; 0x6000]) /\
  (exists st',
     memscav_init device_tree_platform true true 0 8 initial_state
       = Returned 0 st' /\
     built_from (fdt_entries device_tree_platform) (ranges st') /\
     ranges st' = Fixture.scenario_ranges).
Proof.
  assert (Hsort : sort_contract device_tree_platform).
  { intros cmp l Htot Htrans. now apply insertion_sort_spec. }
  split.
  - exists (outcome_state
              (memscav_init Fixture.scenario true true 0 8 initial_state)).
    assert (Hrun : memscav_init Fixture.scenario true true 0 8 initial_state
                   = Returned 0
                       (outcome_state
                          (memscav_init Fixture.scenario true true 0 8
                             initial_state)))
      by (vm_compute; reflexivity).
    destruct (memscav_init_success_state Fixture.scenario true true 0 8
                initial_state _ scenario_sort_contract eq_refl Hrun)
      as (Hbuilt & _).
    split; [exact Hrun|]. split; [exact Hbuilt|].
    split; vm_compute; reflexivity.
  - exists (outcome_state
              (memscav_init device_tree_platform true true 0 8 initial_state)).
    assert (Hrun : memscav_init device_tree_platform true true 0 8
                     initial_state
                   = Returned 0
                       (outcome_state
                          (memscav_init device_tree_platform true true 0 8
                             initial_state)))
      by (vm_compute; reflexivity).
    destruct (memscav_init_success_state device_tree_platform true true 0 8
                initial_state _ Hsort eq_refl Hrun)
      as (Hbuilt & _).
    split; [exact Hrun|]. split; [exact Hbuilt|]. vm_compute. reflexivity.
Defined.
